(** * Movie recommender: ranking and filtering over a fixed catalog

    A shallow embedding of [git.py]: the two API helpers
    ([fetch_movie_details], [fetch_trailer]), the similarity ranking
    ([recommend]) and the catalog scan ([filter_movies_by_criteria]).

    Conventions of the embedding.
    - The module globals [movies] (a DataFrame with the columns [movie_id]
      and [title], carrying the default positional index) and [similarity]
      (a matrix of floats) are the section variables of the same names:
      a list of rows and a list of rows of scores.
    - Python floats are finite here and are represented by the rational
      they denote ([Qc]); the program only compares them.
    - The remote API is an oracle: the decoded body a request answers with,
      as a function of the movie id.  Every request is recorded in a log,
      which is the state threaded through the program.
    - Exceptions are values: a computation returns [inl e] when it raises. *)

From stdpp Require Import base numbers list strings gmap sorting.
From Stdlib Require Import QArith Qcanon.

Local Open Scope Z_scope.

(** ** Values *)

Inductive exn : Type :=
  | IndexError
  | KeyError
  | ValueError
  | TypeError
  | RequestException.

(** A row of the [movies] DataFrame. *)
Record movie : Type := Movie { movie_id : Z; title : string }.

(** What [data.get('vote_average', 'N/A')] can evaluate to: a JSON number,
    a string (the literal ['N/A'] among them) or [None]. *)
Inductive rating : Type :=
  | RNum (q : Qc)
  | RStr (s : string)
  | RNull.

(** The tuple returned by [fetch_movie_details]. *)
Record details : Type := Details {
  d_poster : string;
  d_genres : string;
  d_rating : rating;
  d_cast : string
}.

(** The dictionary appended to [recommendations] and to [matched]. *)
Record enriched : Type := Enriched {
  Title : string;
  Poster : string;
  Genres : string;
  Rating : rating;
  Cast : string;
  Trailer : string
}.

(** The body of the details endpoint after [response.json()], reduced to
    the keys the program reads: ['poster_path'], the ['name'] of every entry
    of ['genres'], ['vote_average'] and the ['name'] of every entry of
    ['credits']['cast'].  An absent key is [None] (or the empty list, which
    is the default the program passes to [get]). *)
Record movie_data : Type := MovieData {
  poster_path : option string;
  genre_names : list string;
  vote_average : option rating;
  cast_names : list string
}.

(** One entry of the ['results'] list of the videos endpoint: a dictionary. *)
Abbreviation video := (gmap string string).

(** A request to the remote API. *)
Inductive event : Type :=
  | GetMovie (id : Z)
  | GetVideos (id : Z).

(** ** Computations: a log of requests and an exception *)

Definition M (A : Type) : Type := list event → (exn + A) * list event.

Definition ret {A} (a : A) : M A := λ log, (inr a, log).

Definition bind {A B} (c : M A) (k : A → M B) : M B :=
  λ log, match c log with
         | (inr a, log') => k a log'
         | (inl e, log') => (inl e, log')
         end.

Definition raise {A} (e : exn) : M A := λ log, (inl e, log).

Definition request (e : event) : M unit := λ log, (inr tt, log ++ [e]).

(** [o] when it is there, the exception [e] otherwise. *)
Definition or_raise {A} (e : exn) (o : option A) : M A :=
  match o with Some a => ret a | None => raise e end.

Declare Scope prog_scope.
Delimit Scope prog_scope with prog.
Notation "x <- c ;; k" := (bind c (λ x, k))
  (at level 100, c at next level, right associativity) : prog_scope.
Notation "c ;;; k" := (bind c (λ _, k))
  (at level 100, right associativity) : prog_scope.
Local Open Scope prog_scope.

(** [for x in xs: ys.append(f x)], the list [ys] being returned at the end. *)
Fixpoint for_each {A B} (f : A → M B) (xs : list A) : M (list B) :=
  match xs with
  | [] => ret []
  | x :: xs' => y <- f x ;; ys <- for_each f xs' ;; ret (y :: ys)
  end.

(** ** Python built-ins *)

(** [p] is an initial segment of [s]. *)
Fixpoint starts_with (p s : string) : bool :=
  match p, s with
  | EmptyString, _ => true
  | String a p', String b s' => if Ascii.eqb a b then starts_with p' s' else false
  | String _ _, EmptyString => false
  end.

(** [needle in hay] on strings. *)
Fixpoint contains (needle hay : string) : bool :=
  starts_with needle hay ||
  match hay with
  | EmptyString => false
  | String _ hay' => contains needle hay'
  end.

(** [list(enumerate(row))]. *)
Definition enumerate {A} (row : list A) : list (nat * A) := imap pair row.

(** The bound [i] of a slice of a sequence of length [len], as Python
    normalises it: a negative bound counts from the end, and every bound is
    clipped to the sequence. *)
Definition slice_bound (len i : Z) : Z :=
  if i <? 0 then Z.max (len + i) 0 else Z.min i len.

(** [l[start:stop]]. *)
Definition py_slice {A} (l : list A) (start stop : Z) : list A :=
  let len := Z.of_nat (length l) in
  let a := slice_bound len start in
  let b := slice_bound len stop in
  take (Z.to_nat (b - a)) (drop (Z.to_nat a) l).

(** [sorted(l, reverse=True, key=lambda x: x[1])].  Python's sort is stable,
    also with [reverse=True]: the keys come out in non-increasing order and
    elements with equal keys keep the order they had in [l].  On finite
    floats that fixes the result, which is computed here by insertion: the
    head of the list goes before the first element whose key is not larger. *)
Fixpoint insert_desc {A} (x : A * Qc) (l : list (A * Qc)) : list (A * Qc) :=
  match l with
  | [] => [x]
  | y :: l' => if bool_decide (x.2 < y.2)%Qc then y :: insert_desc x l' else x :: l
  end.

Definition sorted_desc {A} (l : list (A * Qc)) : list (A * Qc) :=
  foldr insert_desc [] l.

(** [", ".join(names)]. *)
Definition join_comma (names : list string) : string := String.concat ", " names.

(** [d[k]] on a dictionary. *)
Definition getitem (d : video) (k : string) : exn + string :=
  match d !! k with Some v => inr v | None => inl KeyError end.

(** ** Notions the properties are stated with *)

(** [needle] occurs in [hay]. *)
Definition substring_of (needle hay : string) : Prop :=
  ∃ pre post, hay = pre +:+ needle +:+ post.

(** The descending order of a ranking: a larger score first and, at equal
    scores, the earlier position first. *)
Definition ranks_before (a b : nat * Qc) : Prop :=
  (b.2 < a.2)%Qc ∨ (a.2 = b.2 ∧ (a.1 < b.1)%nat).

(** The score at position [p] of [row] is larger than every score before it
    and at least every score after it. *)
Definition ranks_first (row : list Qc) (p : nat) : Prop :=
  ∃ self, row !! p = Some self ∧
    ∀ j s, row !! j = Some s →
      ((j < p)%nat → (s < self)%Qc) ∧ ((p < j)%nat → (s ≤ self)%Qc).

(** The entry [v] of a videos response is a trailer on YouTube. *)
Definition is_trailer (v : video) : Prop :=
  v !! "type" = Some "Trailer" ∧ v !! "site" = Some "YouTube".

(** The entry [v] has the keys the loop of [fetch_trailer] subscripts. *)
Definition has_keys (v : video) : Prop :=
  is_Some (v !! "type") ∧
  (v !! "type" = Some "Trailer" →
     is_Some (v !! "site") ∧ (v !! "site" = Some "YouTube" → is_Some (v !! "key"))).

(** ** Sample data *)

(** [str.lower] on ASCII letters. *)
Fixpoint lower_ascii (s : string) : string :=
  match s with
  | EmptyString => EmptyString
  | String c s' =>
      let n := Ascii.nat_of_ascii c in
      String (if ((65 <=? n) && (n <=? 90))%nat then Ascii.ascii_of_nat (n + 32) else c)
             (lower_ascii s')
  end.

(** A [float] on strings for data in which no string denotes a number. *)
Definition no_numeral (s : string) : option Qc := None.

Definition sample_movies : list movie :=
  [Movie 1 "A"; Movie 2 "B"; Movie 3 "C"].

Definition sample_similarity : list (list Qc) :=
  [[Q2Qc 1; Q2Qc (8 # 10); Q2Qc (3 # 10)];
   [Q2Qc (8 # 10); Q2Qc 1; Q2Qc (5 # 10)];
   [Q2Qc (3 # 10); Q2Qc (5 # 10); Q2Qc 1]].

(** Two rows that are as similar to each other as each is to itself. *)
Definition twin_movies : list movie := [Movie 1 "A"; Movie 2 "B"].

Definition twin_similarity : list (list Qc) :=
  [[Q2Qc 1; Q2Qc 1]; [Q2Qc 1; Q2Qc 1]].

(** Bodies of the details endpoint: the second lacks ['vote_average'], and
    the request for any id above 3 fails. *)
Definition sample_get_movie (id : Z) : option movie_data :=
  if id =? 1 then
    Some (MovieData (Some "/a.jpg") ["Action"; "Drama"] (Some (RNum (Q2Qc (75 # 10)))) ["Ann"; "Bob"])
  else if id =? 2 then
    Some (MovieData None ["Comedy"] None ["Cid"])
  else if id =? 3 then
    Some (MovieData (Some "/c.jpg") ["Action"] (Some (RNum (Q2Qc (61 # 10)))) ["Dee"])
  else None.

(** Bodies of the videos endpoint: a teaser before a trailer; a trailer whose
    entry lacks ['key']; no ['results'] at all; a failed request. *)
Definition sample_get_videos (id : Z) : option (option (list video)) :=
  if id =? 1 then
    Some (Some [ {[ "type" := "Teaser"; "site" := "YouTube"; "key" := "t1" ]};
                 {[ "type" := "Trailer"; "site" := "YouTube"; "key" := "abc" ]};
                 {[ "type" := "Trailer"; "site" := "YouTube"; "key" := "xyz" ]} ])
  else if id =? 2 then
    Some (Some [ {[ "type" := "Trailer"; "site" := "YouTube" ]} ])
  else if id =? 3 then Some None
  else None.

Section Program.

(** [str.lower]. *)
Variable lower : string → string.

(** [float(s)] on a string: the number [s] denotes, if it denotes one. *)
Variable str_to_float : string → option Qc.

(** The details endpoint: the decoded body, or [None] when
    [requests.get], [raise_for_status] or [json] raises or the body lacks
    what the program subscripts. *)
Variable get_movie : Z → option movie_data.

(** The videos endpoint: [None] when the request or the decoding raises;
    otherwise the value of the key ['results'], if the body has it. *)
Variable get_videos : Z → option (option (list video)).

Variable movies : list movie.
Variable similarity : list (list Qc).

(** [float(rating)]. *)
Definition float (r : rating) : exn + Qc :=
  match r with
  | RNum q => inr q
  | RStr s => match str_to_float s with Some q => inr q | None => inl ValueError end
  | RNull => inl TypeError
  end.

(** *** API helpers *)

(** The tuple [fetch_movie_details] returns: the one its [try] block builds
    from the body, or the one of its [except] clause. *)
Definition movie_details (id : Z) : details :=
  match get_movie id with
  | Some data =>
      let poster :=
        match poster_path data with
        | Some p => if String.eqb p "" then "https://via.placeholder.com/500x750?text=No+Image"
                    else "https://image.tmdb.org/t/p/w500/" +:+ p
        | None => "https://via.placeholder.com/500x750?text=No+Image"
        end in
      let genres := join_comma (genre_names data) in
      let rating := default (RStr "N/A") (vote_average data) in
      let cast_list := take 5 (cast_names data) in
      let cast := join_comma cast_list in
      Details poster genres rating cast
  | None =>
      Details "https://via.placeholder.com/500x750?text=Error" "N/A" (RStr "N/A") "N/A"
  end.

Definition fetch_movie_details (id : Z) : M details :=
  request (GetMovie id) ;;; ret (movie_details id).

(** The loop of [fetch_trailer] over [data.get('results', [])], with what
    follows it. *)
Fixpoint scan_videos (videos : list video) : exn + string :=
  match videos with
  | [] => inr "https://youtube.com"
  | video :: videos' =>
      match getitem video "type" with
      | inl e => inl e
      | inr ty =>
          if String.eqb ty "Trailer" then
            match getitem video "site" with
            | inl e => inl e
            | inr site =>
                if String.eqb site "YouTube" then
                  match getitem video "key" with
                  | inl e => inl e
                  | inr key => inr ("https://www.youtube.com/watch?v=" +:+ key)
                  end
                else scan_videos videos'
            end
          else scan_videos videos'
      end
  end.

(** The [try] block of [fetch_trailer]. *)
Definition fetch_trailer_try (id : Z) : exn + string :=
  match get_videos id with
  | None => inl RequestException
  | Some data => scan_videos (default [] data)
  end.

(** The URL [fetch_trailer] returns: the one of its [try] block, or the one
    of its [except] clause. *)
Definition trailer_url (id : Z) : string :=
  match fetch_trailer_try id with
  | inr url => url
  | inl _ => "https://youtube.com"
  end.

Definition fetch_trailer (id : Z) : M string :=
  request (GetVideos id) ;;; ret (trailer_url id).

(** *** Recommendation logic *)

(** [movies[movies['title'] == movie].index[0]]. *)
Definition title_index (movie : string) : M nat :=
  or_raise IndexError (fst <$> list_find (λ m, title m = movie) movies).

(** [distances[1:num_results + 1]], where [distances] is the ranking of the
    positions of [row] by score. *)
Definition selected (row : list Qc) (num_results : Z) : list (nat * Qc) :=
  let distances := sorted_desc (enumerate row) in
  py_slice distances 1 (num_results + 1).

(** The body of the loop of [recommend], for the entry [i] of the ranking. *)
Definition recommendation (i : nat * Qc) : M enriched :=
  m <- or_raise IndexError (movies !! i.1) ;;
  d <- fetch_movie_details (movie_id m) ;;
  trailer <- fetch_trailer (movie_id m) ;;
  ret (Enriched (title m) (d_poster d) (d_genres d) (d_rating d) (d_cast d) trailer).

Definition recommend (movie : string) (num_results : Z) : M (list enriched) :=
  index <- title_index movie ;;
  row <- or_raise IndexError (similarity !! index) ;;
  for_each recommendation (selected row num_results).

(** The loop of [filter_movies_by_criteria] from the row at the head of
    [rows] on, [matched] being the list built so far. *)
Fixpoint filter_loop (genre cast : string) (min_rating : Qc) (num_results : Z)
    (rows : list movie) (matched : list enriched) : M (list enriched) :=
  match rows with
  | [] => ret matched
  | m :: rows' =>
      d <- fetch_movie_details (movie_id m) ;;
      trailer <- fetch_trailer (movie_id m) ;;
      if contains (lower genre) (lower (d_genres d))
         && contains (lower cast) (lower (d_cast d)) then
        match float (d_rating d) with
        | inr r =>
            if bool_decide (min_rating ≤ r)%Qc then
              let matched' :=
                matched ++ [Enriched (title m) (d_poster d) (d_genres d)
                                     (d_rating d) (d_cast d) trailer] in
              if Z.of_nat (length matched') >=? num_results then ret matched'
              else filter_loop genre cast min_rating num_results rows' matched'
            else filter_loop genre cast min_rating num_results rows' matched
        | inl _ => filter_loop genre cast min_rating num_results rows' matched
        end
      else filter_loop genre cast min_rating num_results rows' matched
  end.

Definition filter_movies_by_criteria (genre cast : string) (min_rating : Qc)
    (num_results : Z) : M (list enriched) :=
  filter_loop genre cast min_rating num_results movies [].

(** *** Notions the properties are stated with *)

(** The dictionary the program builds for the row [m]. *)
Definition enrich (m : movie) : enriched :=
  let d := movie_details (movie_id m) in
  Enriched (title m) (d_poster d) (d_genres d) (d_rating d) (d_cast d)
           (trailer_url (movie_id m)).

(** The requests the program sends for the rows [rows], in order. *)
Definition fetches (rows : list movie) : list event :=
  rows ≫= λ m, [GetMovie (movie_id m); GetVideos (movie_id m)].

(** The rating of the row [m] converts to a number, which is at least
    [min_rating]. *)
Definition rated_at_least (min_rating : Qc) (m : movie) : bool :=
  match float (d_rating (movie_details (movie_id m))) with
  | inr r => bool_decide (min_rating ≤ r)%Qc
  | inl _ => false
  end.

(** The row [m] passes the three tests of [filter_movies_by_criteria]. *)
Definition matches (genre cast : string) (min_rating : Qc) (m : movie) : bool :=
  let d := movie_details (movie_id m) in
  contains (lower genre) (lower (d_genres d))
  && contains (lower cast) (lower (d_cast d))
  && rated_at_least min_rating m.

(** [similarity] is square and as large as the catalog. *)
Definition matching_dimensions : Prop :=
  length similarity = length movies ∧
  Forall (λ row, length row = length movies) similarity.

(** * Properties *)

(** ** Strings *)

Lemma append_cons a s t : String a s +:+ t = String a (s +:+ t).
Proof. reflexivity. Qed.

Lemma starts_with_spec p s : starts_with p s = true ↔ ∃ t, s = p +:+ t.
Proof.
  revert s. induction p as [|a p IH]; intros s; simpl.
  - split; [eauto|done].
  - setoid_rewrite append_cons. destruct s as [|b s].
    + split; [done|]. intros [t Ht]. discriminate.
    + destruct (Ascii.eqb_spec a b) as [->|Hab].
      * rewrite IH. split; intros [t Ht]; exists t; congruence.
      * split; [done|]. intros [t Ht]. congruence.
Qed.

Lemma contains_spec needle hay : contains needle hay = true ↔ substring_of needle hay.
Proof.
  unfold substring_of. induction hay as [|a hay IH]; simpl.
  - rewrite orb_false_r, starts_with_spec. split.
    + intros [t Ht]. exists "", t. done.
    + intros (pre & post & H). destruct pre; [|discriminate]. eauto.
  - rewrite orb_true_iff, starts_with_spec, IH. split.
    + intros [[t Ht]|(pre & post & ->)].
      * exists "", t. done.
      * exists (String a pre), post. done.
    + intros (pre & post & H). destruct pre as [|b pre].
      * left. eauto.
      * right. rewrite append_cons in H. exists pre, post. congruence.
Qed.

Lemma contains_empty hay : contains "" hay = true.
Proof. by destruct hay. Qed.

(** ** Slices *)

Lemma py_slice_from_1 {A} (l : list A) (n : Z) :
  0 ≤ n → py_slice l 1 (n + 1) = take (Z.to_nat n) (drop 1 l).
Proof.
  intros Hn. unfold py_slice, slice_bound.
  rewrite (proj2 (Z.ltb_ge 1 0)), (proj2 (Z.ltb_ge (n + 1) 0)) by lia.
  destruct l as [|x l]; [by rewrite !drop_nil, !take_nil|].
  cbn [length]. rewrite (Z.min_l 1) by lia. change (Z.to_nat 1) with 1%nat.
  destruct (decide (n + 1 ≤ Z.of_nat (S (length l)))).
  - rewrite Z.min_l by lia. f_equal. lia.
  - rewrite Z.min_r by lia. rewrite !take_ge; [done| |];
      rewrite length_drop; cbn [length]; lia.
Qed.

Lemma py_slice_sublist {A} (l : list A) (a b : Z) : py_slice l a b `sublist_of` l.
Proof. unfold py_slice. etrans; [apply sublist_take|apply sublist_drop]. Qed.

Lemma StronglySorted_sublist {A} (R : A → A → Prop) (l k : list A) :
  l `sublist_of` k → StronglySorted R k → StronglySorted R l.
Proof.
  induction 1 as [|x l k Hlk IH|x l k Hlk IH]; intros Hk; [done| |].
  - apply StronglySorted_inv in Hk as [Hk Hx]. constructor; [auto|].
    rewrite Forall_forall in Hx. apply Forall_forall. intros y Hy.
    apply Hx. by eapply elem_of_sublist.
  - apply StronglySorted_inv in Hk as [Hk _]. auto.
Qed.

(** ** The ranking *)

Lemma insert_desc_perm {A} (x : A * Qc) l : insert_desc x l ≡ₚ x :: l.
Proof.
  induction l as [|y l IH]; simpl; [done|].
  case_bool_decide; [|done]. rewrite IH. apply Permutation_swap.
Qed.

Lemma sorted_desc_perm {A} (l : list (A * Qc)) : sorted_desc l ≡ₚ l.
Proof.
  induction l as [|x l IH]; simpl; [done|]. by rewrite insert_desc_perm, IH.
Qed.

Lemma sorted_desc_length {A} (l : list (A * Qc)) : length (sorted_desc l) = length l.
Proof. by rewrite sorted_desc_perm. Qed.

Lemma ranks_before_trans a b c : ranks_before a b → ranks_before b c → ranks_before a c.
Proof.
  unfold ranks_before. intros [Hab|[Hab Hab']] [Hbc|[Hbc Hbc']].
  - left. by eapply Qclt_trans.
  - left. congruence.
  - left. congruence.
  - right. split; [congruence|lia].
Qed.

Lemma insert_desc_sorted (x : nat * Qc) l :
  Forall (λ y, (x.1 < y.1)%nat) l →
  StronglySorted ranks_before l → StronglySorted ranks_before (insert_desc x l).
Proof.
  induction l as [|y l IH]; intros Hx Hl; simpl.
  - repeat constructor.
  - apply Forall_cons in Hx as [Hxy Hx].
    apply StronglySorted_inv in Hl as [Hl Hy].
    case_bool_decide as Hlt.
    + constructor; [auto|]. rewrite insert_desc_perm.
      constructor; [by left|done].
    + assert (ranks_before x y) as Hxy'.
      { apply Qcnot_lt_le, Qcle_lt_or_eq in Hlt as [?|?]; [by left|by right]. }
      constructor; [by constructor|]. constructor; [done|].
      eapply Forall_impl; [done|]. intros z Hz. by eapply ranks_before_trans.
Qed.

Lemma sorted_desc_sorted (l : list (nat * Qc)) :
  StronglySorted (λ a b, (a.1 < b.1)%nat) l →
  StronglySorted ranks_before (sorted_desc l).
Proof.
  induction 1 as [|x l Hl IH Hx]; simpl; [constructor|].
  apply insert_desc_sorted; [|done]. by rewrite sorted_desc_perm.
Qed.

Lemma imap_sorted {A B} (R : B → B → Prop) (f : nat → A → B) (l : list A) :
  (∀ i j x y, (i < j)%nat → R (f i x) (f j y)) → StronglySorted R (imap f l).
Proof.
  revert f. induction l as [|x l IH]; intros f Hf; [constructor|].
  rewrite imap_cons. constructor.
  - apply IH. intros i j a b Hij. apply Hf. lia.
  - apply Forall_forall. intros y (i & a & -> & _)%elem_of_lookup_imap.
    apply Hf. lia.
Qed.

Lemma enumerate_sorted {A} (row : list A) :
  StronglySorted (λ a b : nat * A, (a.1 < b.1)%nat) (enumerate row).
Proof. apply imap_sorted. by intros. Qed.

Lemma elem_of_enumerate {A} (row : list A) i x :
  (i, x) ∈ enumerate row ↔ row !! i = Some x.
Proof.
  unfold enumerate. rewrite elem_of_lookup_imap. split.
  - intros (j & y & [= -> ->] & H). done.
  - intros H. eauto.
Qed.

Lemma enumerate_positions {A} (row : list A) :
  (enumerate row).*1 = seq 0 (length row).
Proof.
  unfold enumerate. rewrite fmap_imap.
  etrans; [|apply list_fmap_id]. apply (imap_seq_0 row id).
Qed.

Lemma ranks_before_antisym a b : ranks_before a b → ranks_before b a → a = b.
Proof.
  unfold ranks_before. intros [Hab|[Hab Hab']] [Hba|[Hba Hba']].
  - destruct (Qclt_not_le _ _ Hab). by apply Qclt_le_weak.
  - rewrite Hba in Hab. by destruct (Qclt_not_eq _ _ Hab).
  - rewrite Hab in Hba. by destruct (Qclt_not_eq _ _ Hba).
  - lia.
Qed.

(** The ranking is the only arrangement of the enumerated row in which the
    scores do not increase and equal scores keep their positions in order:
    what a stable sort in reverse promises determines [sorted_desc]. *)
Lemma sorted_desc_unique (row : list Qc) (l : list (nat * Qc)) :
  l ≡ₚ enumerate row → StronglySorted ranks_before l →
  l = sorted_desc (enumerate row).
Proof.
  intros Hperm Hl. eapply StronglySorted_unique_strong; [|done| |].
  - intros x y _ _. apply ranks_before_antisym.
  - apply sorted_desc_sorted, enumerate_sorted.
  - by rewrite sorted_desc_perm.
Qed.

Lemma ranking_head (row : list Qc) (p : nat) :
  ranks_first row p →
  ∃ self tl, sorted_desc (enumerate row) = (p, self) :: tl ∧ p ∉ tl.*1.
Proof.
  intros (self & Hp & Hmax).
  pose proof (sorted_desc_perm (enumerate row)) as Hperm.
  pose proof (sorted_desc_sorted _ (enumerate_sorted row)) as Hsorted.
  assert (NoDup (sorted_desc (enumerate row)).*1) as Hnodup.
  { rewrite Hperm, enumerate_positions. apply NoDup_seq. }
  assert ((p, self) ∈ sorted_desc (enumerate row)) as Hin.
  { rewrite Hperm. by apply elem_of_enumerate. }
  destruct (sorted_desc (enumerate row)) as [|[j s] tl].
  { by apply elem_of_nil in Hin. }
  assert (row !! j = Some s) as Hj.
  { apply elem_of_enumerate. rewrite <-Hperm. left. }
  apply StronglySorted_inv in Hsorted as [_ Hhd].
  rewrite fmap_cons in Hnodup. apply NoDup_cons in Hnodup as [Hnotin _].
  destruct (Hmax j s Hj) as [Hbefore Hafter].
  assert (j = p) as ->.
  { apply elem_of_cons in Hin as [[= -> ->]|Hin]; [done|].
    rewrite Forall_forall in Hhd. destruct (Hhd _ Hin) as [Hlt|[Heq Hlt]]; simpl in *.
    - destruct (lt_eq_lt_dec j p) as [[Hjp| ->]|Hjp]; [|done|].
      + destruct (Qclt_not_le _ _ Hlt). by apply Qclt_le_weak, Hbefore.
      + destruct (Qclt_not_le _ _ Hlt). by apply Hafter.
    - subst s. by destruct (Qclt_not_eq _ _ (Hbefore Hlt)). }
  exists self, tl. split; [congruence|done].
Qed.

(** ** The entries [recommend] runs over *)

Lemma selected_sublist row n :
  selected row n `sublist_of` sorted_desc (enumerate row).
Proof. apply py_slice_sublist. Qed.

Lemma selected_sorted row n : StronglySorted ranks_before (selected row n).
Proof.
  eapply StronglySorted_sublist; [apply selected_sublist|].
  apply sorted_desc_sorted, enumerate_sorted.
Qed.

Lemma selected_scores row n :
  Forall (λ i, row !! i.1 = Some i.2) (selected row n).
Proof.
  apply Forall_forall. intros [j s] Hin. apply elem_of_enumerate.
  rewrite <-(sorted_desc_perm (enumerate row)).
  eapply elem_of_sublist; [done|apply selected_sublist].
Qed.

Lemma selected_length row n :
  0 ≤ n → length (selected row n) = (Z.to_nat n `min` (length row - 1))%nat.
Proof.
  intros Hn. unfold selected. rewrite py_slice_from_1 by done.
  rewrite length_take, length_drop, sorted_desc_length.
  unfold enumerate. by rewrite length_imap.
Qed.

Lemma selected_excludes_first row n p :
  0 ≤ n → ranks_first row p → p ∉ (selected row n).*1.
Proof.
  intros Hn (self & tl & Hl & Hp)%ranking_head.
  unfold selected. rewrite py_slice_from_1, Hl by done. cbn [drop].
  intros Hin. apply Hp. eapply elem_of_sublist; [done|].
  apply fmap_sublist, sublist_take.
Qed.

(** ** Running the program *)

Lemma fetches_cons m rows : fetches (m :: rows) = fetches [m] ++ fetches rows.
Proof. reflexivity. Qed.

Lemma fetches_app rows1 rows2 :
  fetches (rows1 ++ rows2) = fetches rows1 ++ fetches rows2.
Proof. unfold fetches. apply bind_app. Qed.

Lemma recommendation_run i m log :
  movies !! i.1 = Some m →
  recommendation i log = (inr (enrich m), log ++ fetches [m]).
Proof.
  intros Hm. unfold recommendation, bind. rewrite Hm. simpl.
  by rewrite <-app_assoc.
Qed.

Lemma for_each_recommendation sel ms log :
  Forall2 (λ i m, movies !! i.1 = Some m) sel ms →
  for_each recommendation sel log = (inr (enrich <$> ms), log ++ fetches ms).
Proof.
  intros H. revert log. induction H as [|i m sel ms Hm _ IH]; intros log.
  - simpl. unfold ret. by rewrite app_nil_r.
  - cbn [for_each]. unfold bind at 1. rewrite (recommendation_run _ _ _ Hm).
    unfold bind at 1. rewrite IH. unfold ret.
    by rewrite (fetches_cons m ms), app_assoc.
Qed.

Lemma rows_exist (sel : list (nat * Qc)) :
  Forall (λ i, (i.1 < length movies)%nat) sel →
  ∃ ms, Forall2 (λ i m, movies !! i.1 = Some m) sel ms.
Proof.
  induction 1 as [|i sel Hi _ [ms IH]]; [by exists []|].
  apply lookup_lt_is_Some in Hi as [m Hm]. exists (m :: ms). by constructor.
Qed.

Lemma recommend_run movie n p m row log :
  list_find (λ m, title m = movie) movies = Some (p, m) →
  similarity !! p = Some row →
  length row = length movies →
  ∃ ms, Forall2 (λ i m, movies !! i.1 = Some m) (selected row n) ms ∧
        recommend movie n log = (inr (enrich <$> ms), log ++ fetches ms).
Proof.
  intros Hfind Hrow Hlen.
  destruct (rows_exist (selected row n)) as [ms Hms].
  { eapply Forall_impl; [apply selected_scores|]. intros i Hi. simpl in Hi.
    rewrite <-Hlen. by eapply lookup_lt_Some. }
  exists ms. split; [done|].
  unfold recommend, title_index, bind. rewrite Hfind. simpl. rewrite Hrow. simpl.
  by apply for_each_recommendation.
Qed.

Lemma matching_dimensions_row p m :
  matching_dimensions → movies !! p = Some m →
  ∃ row, similarity !! p = Some row ∧ length row = length movies.
Proof.
  intros [Hlen Hrows] Hm. apply lookup_lt_Some in Hm.
  destruct (lookup_lt_is_Some_2 similarity p) as [row Hrow]; [lia|].
  exists row. split; [done|]. rewrite Forall_forall in Hrows.
  apply Hrows. by eapply list_elem_of_lookup_2.
Qed.

(** One turn of the loop of [filter_movies_by_criteria]. *)
Lemma filter_loop_cons genre cast min_rating n m rows matched log :
  filter_loop genre cast min_rating n (m :: rows) matched log =
  if matches genre cast min_rating m then
    if Z.of_nat (length (matched ++ [enrich m])) >=? n
    then (inr (matched ++ [enrich m]), log ++ fetches [m])
    else filter_loop genre cast min_rating n rows (matched ++ [enrich m])
           (log ++ fetches [m])
  else filter_loop genre cast min_rating n rows matched (log ++ fetches [m]).
Proof.
  cbn [filter_loop]. unfold fetch_movie_details, fetch_trailer, request, ret, bind.
  unfold matches, rated_at_least, enrich. cbv beta iota zeta.
  replace (log ++ fetches [m])
    with ((log ++ [GetMovie (movie_id m)]) ++ [GetVideos (movie_id m)])
    by (by rewrite <-app_assoc).
  destruct (contains (lower genre) _ && contains (lower cast) _); [|done].
  cbn [andb]. destruct (float _) as [e|r]; [done|].
  destruct (bool_decide _); [|done]. by destruct (_ >=? _).
Qed.

(** The result of the loop: the rows that pass the tests, up to the quota,
    which a call with [n ≤ 0] meets at its first match. *)
Lemma filter_loop_results genre cast min_rating n rows matched log :
  (length matched < Z.to_nat (n `max` 1))%nat →
  (filter_loop genre cast min_rating n rows matched log).1 =
  inr (matched ++ (enrich <$>
         take (Z.to_nat (n `max` 1) - length matched)
              (filter (λ m, matches genre cast min_rating m) rows))).
Proof.
  revert matched log. induction rows as [|m rows IH]; intros matched log Hlen.
  - cbn [filter_loop ret fst]. by rewrite filter_nil, take_nil, app_nil_r.
  - rewrite filter_loop_cons, filter_cons.
    destruct (matches genre cast min_rating m) eqn:Hm.
    + rewrite decide_True by done. rewrite length_app. cbn [length].
      destruct (Z.geb_spec (Z.of_nat (length matched + 1)) n) as [Hge|Hlt].
      * replace (Z.to_nat (n `max` 1) - length matched)%nat with 1%nat by lia.
        done.
      * rewrite IH by (rewrite length_app; simpl; lia).
        rewrite length_app. cbn [length].
        replace (Z.to_nat (n `max` 1) - length matched)%nat
          with (S (Z.to_nat (n `max` 1) - (length matched + 1)))%nat by lia.
        by rewrite <-app_assoc.
    + rewrite decide_False by (simpl; tauto). by apply IH.
Qed.

(** The requests of the loop when the quota is met at the row [m]: those
    for the rows up to [m], and none after. *)
Lemma filter_loop_quota genre cast min_rating n pre m post matched log :
  matches genre cast min_rating m = true →
  (length matched + length (filter (λ m, matches genre cast min_rating m) pre) + 1
   = Z.to_nat (n `max` 1))%nat →
  filter_loop genre cast min_rating n (pre ++ m :: post) matched log =
  (inr (matched ++ (enrich <$>
          filter (λ m, matches genre cast min_rating m) pre ++ [m])),
   log ++ fetches (pre ++ [m])).
Proof.
  intros Hm. revert matched log.
  induction pre as [|x pre IH]; intros matched log Hlen.
  - cbn [app]. rewrite filter_loop_cons, Hm, length_app. cbn [length].
    rewrite filter_nil in Hlen |- *. simpl in Hlen.
    destruct (Z.geb_spec (Z.of_nat (length matched + 1)) n); [done|lia].
  - rewrite <-app_comm_cons, filter_loop_cons, filter_cons.
    rewrite filter_cons in Hlen.
    change ((x :: pre) ++ [m]) with (x :: (pre ++ [m])).
    rewrite (fetches_cons x (pre ++ [m])), (app_assoc log).
    destruct (matches genre cast min_rating x) eqn:Hx.
    + rewrite decide_True in Hlen |- * by done. cbn [length] in Hlen.
      rewrite length_app. cbn [length].
      destruct (Z.geb_spec (Z.of_nat (length matched + 1)) n); [lia|].
      rewrite IH by (rewrite length_app; simpl; lia).
      by rewrite <-app_assoc.
    + rewrite decide_False in Hlen |- * by (simpl; tauto). by apply IH.
Qed.

Lemma filter_loop_returns genre cast min_rating n rows matched log :
  ∃ rs log', filter_loop genre cast min_rating n rows matched log = (inr rs, log').
Proof.
  revert matched log. induction rows as [|m rows IH]; intros matched log.
  - by eexists _, _.
  - rewrite filter_loop_cons. destruct (matches _ _ _ _); [|apply IH].
    destruct (_ >=? _); [by eexists _, _|apply IH].
Qed.

Lemma filter_run genre cast min_rating n log :
  ∃ log', filter_movies_by_criteria genre cast min_rating n log =
    (inr (enrich <$> take (Z.to_nat (n `max` 1))
                          (filter (λ m, matches genre cast min_rating m) movies)),
     log').
Proof.
  unfold filter_movies_by_criteria.
  destruct (filter_loop_returns genre cast min_rating n movies [] log)
    as (rs & log' & Hrun).
  pose proof (filter_loop_results genre cast min_rating n movies [] log) as Hrs.
  rewrite Hrun in Hrs. cbn [fst length] in Hrs.
  rewrite Nat.sub_0_r, app_nil_l in Hrs. exists log'.
  rewrite Hrun. f_equal. apply Hrs. lia.
Qed.

(** The rows a test keeps sit at ascending positions of the list. *)
Lemma filter_positions {A} (P : A → Prop) `{!∀ x, Decision (P x)} (l : list A) :
  ∃ positions : list nat,
    StronglySorted lt positions ∧
    Forall2 (λ i x, l !! i = Some x) positions (filter P l).
Proof.
  induction l as [|x l (positions & Hsorted & Hrows)].
  - exists []. split; constructor.
  - assert (StronglySorted lt (S <$> positions)) as Hsorted'.
    { apply (StronglySorted_fmap _ lt); [|done]. intros i j. lia. }
    assert (Forall2 (λ i y, (x :: l) !! i = Some y) (S <$> positions) (filter P l))
      as Hrows' by (by apply Forall2_fmap_l).
    rewrite filter_cons. destruct (decide (P x)).
    + exists (0%nat :: (S <$> positions)). split; [|by constructor].
      constructor; [done|]. apply Forall_fmap, Forall_forall. intros i _. simpl. lia.
    + by exists (S <$> positions).
Qed.

Lemma matches_spec genre cast min_rating m :
  matches genre cast min_rating m = true →
  substring_of (lower genre) (lower (Genres (enrich m))) ∧
  substring_of (lower cast) (lower (Cast (enrich m))) ∧
  ∃ q, float (Rating (enrich m)) = inr q ∧ (min_rating ≤ q)%Qc.
Proof.
  unfold matches, rated_at_least. cbn [enrich Genres Cast Rating].
  intros [[Hg Hc]%andb_true_iff Hr]%andb_true_iff.
  apply contains_spec in Hg, Hc. split_and!; [done..|].
  destruct (float _) as [e|q]; [done|].
  exists q. split; [done|]. by apply bool_decide_eq_true in Hr.
Qed.

Lemma filter_none {A} (P : A → Prop) `{!∀ x, Decision (P x)} (l : list A) :
  Forall (λ x, ¬ P x) l → filter P l = [].
Proof.
  induction 1 as [|x l Hx _ IH]; [done|]. by rewrite filter_cons, decide_False.
Qed.

Lemma filter_all {A} (P : A → Prop) `{!∀ x, Decision (P x)} (l : list A) :
  Forall P l → filter P l = l.
Proof.
  induction 1 as [|x l Hx _ IH]; [done|]. by rewrite filter_cons, decide_True, IH.
Qed.

Lemma filter_loop_prefix genre cast min_rating n rows matched log :
  ∃ (k : nat) rs,
    filter_loop genre cast min_rating n rows matched log =
      (inr rs, log ++ fetches (take k rows)) ∧
    (k ≤ length rows)%nat ∧ (length rs ≤ length matched + k)%nat.
Proof.
  revert matched log. induction rows as [|m rows IH]; intros matched log.
  - exists 0%nat, matched. cbn [filter_loop ret take]. rewrite app_nil_r.
    split; [done|]. simpl. lia.
  - rewrite filter_loop_cons.
    assert (∀ matched', (length matched' ≤ length matched + 1)%nat →
      ∃ (k : nat) rs,
        filter_loop genre cast min_rating n rows matched' (log ++ fetches [m])
          = (inr rs, log ++ fetches (take k (m :: rows))) ∧
        (k ≤ length (m :: rows))%nat ∧ (length rs ≤ length matched + k)%nat)
      as Hnext.
    { intros matched' Hlen.
      destruct (IH matched' (log ++ fetches [m])) as (k & rs & Hrun & Hk & Hrs).
      exists (S k), rs. rewrite Hrun. cbn [take length].
      rewrite (fetches_cons m (take k rows)), (app_assoc log).
      split; [done|]. lia. }
    destruct (matches genre cast min_rating m); [|apply Hnext; lia].
    destruct (_ >=? _); [|apply Hnext; rewrite length_app; simpl; lia].
    exists 1%nat, (matched ++ [enrich m]). cbn [take length].
    rewrite length_app. simpl. split; [done|]. lia.
Qed.

(** A stretch of rows that does not fill the quota is scanned to its end:
    its matches are appended, its requests are sent, and the loop goes on
    with the rows after it. *)
Lemma filter_loop_passes genre cast min_rating n pre rest matched log :
  (length matched + length (filter (λ m, matches genre cast min_rating m) pre)
   < Z.to_nat (n `max` 1))%nat →
  filter_loop genre cast min_rating n (pre ++ rest) matched log =
  filter_loop genre cast min_rating n rest
    (matched ++ (enrich <$> filter (λ m, matches genre cast min_rating m) pre))
    (log ++ fetches pre).
Proof.
  revert matched log. induction pre as [|x pre IH]; intros matched log Hlen.
  - cbn [app]. by rewrite filter_nil, !app_nil_r.
  - rewrite <-app_comm_cons, filter_loop_cons, filter_cons.
    rewrite (fetches_cons x pre), (app_assoc log).
    rewrite filter_cons in Hlen.
    destruct (matches genre cast min_rating x) eqn:Hx.
    + rewrite decide_True in Hlen |- * by done. cbn [length] in Hlen.
      rewrite length_app. cbn [length].
      destruct (Z.geb_spec (Z.of_nat (length matched + 1)) n); [lia|].
      rewrite IH by (rewrite length_app; simpl; lia).
      by rewrite <-app_assoc.
    + rewrite decide_False in Hlen |- * by (simpl; tauto). by apply IH.
Qed.

(** The loop sends the requests of the row it starts at and of some of the
    rows that follow it, in order. *)
Lemma filter_loop_scans genre cast min_rating n rows matched log :
  ∃ scanned rs,
    filter_loop genre cast min_rating n rows matched log =
      (inr rs, log ++ fetches scanned) ∧
    scanned `prefix_of` rows ∧ (rows ≠ [] → scanned ≠ []).
Proof.
  destruct rows as [|x rows].
  { exists [], matched. cbn [filter_loop ret]. by rewrite app_nil_r. }
  assert (∀ matched',
    ∃ scanned rs,
      filter_loop genre cast min_rating n rows matched' (log ++ fetches [x])
        = (inr rs, log ++ fetches scanned) ∧
      scanned `prefix_of` x :: rows ∧ (x :: rows ≠ [] → scanned ≠ [])) as Hnext.
  { intros matched'.
    destruct (filter_loop_prefix genre cast min_rating n rows matched'
                (log ++ fetches [x])) as (k & rs & Hrun & _).
    exists (x :: take k rows), rs.
    rewrite Hrun, (fetches_cons x (take k rows)), (app_assoc log).
    split_and!; [done| |done]. apply prefix_cons, prefix_take. }
  rewrite filter_loop_cons.
  destruct (matches genre cast min_rating x); [|apply Hnext].
  destruct (_ >=? _); [|apply Hnext].
  exists [x], (matched ++ [enrich x]). split_and!; [done| |done].
  apply prefix_cons, prefix_nil.
Qed.

(** ** The catalog scan *)

Lemma kept_rows_match genre cast min_rating (k : nat) rows m :
  m ∈ take k (filter (λ m, matches genre cast min_rating m) rows) →
  matches genre cast min_rating m = true.
Proof.
  intros Hm. eapply elem_of_sublist in Hm; [|apply sublist_take].
  apply list_elem_of_filter in Hm as [Hm _]. by apply Is_true_true.
Qed.

(** C3. Every dictionary [filter_movies_by_criteria] returns belongs to a
    row whose genres contain [genre] and whose cast contains [cast], both
    compared in lower case, and whose rating converts to a number that is at
    least [min_rating]; the dictionaries come in the order of the catalog,
    from rows at ascending positions. *)
Theorem filter_results_meet_criteria genre cast min_rating n log :
  ∃ rs log',
    filter_movies_by_criteria genre cast min_rating n log = (inr rs, log') ∧
    Forall (λ r, substring_of (lower genre) (lower (Genres r)) ∧
                 substring_of (lower cast) (lower (Cast r)) ∧
                 ∃ q, float (Rating r) = inr q ∧ (min_rating ≤ q)%Qc) rs ∧
    ∃ positions : list nat,
      StronglySorted lt positions ∧
      Forall2 (λ i r, ∃ m, movies !! i = Some m ∧ r = enrich m) positions rs.
Proof.
  destruct (filter_run genre cast min_rating n log) as [log' Hrun].
  eexists _, log'. split; [done|]. split.
  - apply Forall_fmap, Forall_forall. intros m Hm. apply matches_spec.
    by eapply kept_rows_match.
  - destruct (filter_positions (λ m, matches genre cast min_rating m) movies)
      as (positions & Hsorted & Hrows).
    exists (take (Z.to_nat (n `max` 1)) positions). split.
    + eapply StronglySorted_sublist; [apply sublist_take|done].
    + apply Forall2_fmap_r, Forall2_take.
      eapply Forall2_impl; [done|]. intros i m Hi. by exists m.
Qed.

(** C4, as the program has it.  The list returned has at most
    [max num_results 1] entries, and when the row [m] is the match that
    fills that quota, the requests of the call are those for the rows up to
    [m]: no row after [m] is fetched. *)
Theorem filter_stops_at_quota genre cast min_rating n :
  (∀ log, ∃ rs log',
      filter_movies_by_criteria genre cast min_rating n log = (inr rs, log') ∧
      Z.of_nat (length rs) ≤ n `max` 1) ∧
  (∀ pre m post log,
      movies = pre ++ m :: post →
      matches genre cast min_rating m = true →
      Z.of_nat (length (filter (λ m, matches genre cast min_rating m) pre)) + 1
        = n `max` 1 →
      (filter_movies_by_criteria genre cast min_rating n log).2
        = log ++ fetches (pre ++ [m])).
Proof.
  split.
  - intros log. destruct (filter_run genre cast min_rating n log) as [log' Hrun].
    eexists _, log'. split; [done|].
    rewrite length_fmap, length_take. lia.
  - intros pre m post log Hmovies Hm Hquota.
    unfold filter_movies_by_criteria. rewrite Hmovies.
    rewrite (filter_loop_quota genre cast min_rating n pre m post [] log Hm); [done|].
    cbn [length]. lia.
Qed.

(** C6.  No dictionary returned carries the rating ['N/A'], whatever
    [min_rating] is, and a row [m] with that rating does not end the scan.
    The call returns the rows before and after [m] that pass the tests, up
    to the quota.  When the quota is not filled before [m], the requests go
    on past [m] to the row that follows it, and a row after [m] that passes
    the tests within the quota is returned, at its place. *)
Theorem filter_skips_unknown_rating genre cast min_rating n :
  str_to_float "N/A" = None →
  (∀ log, ∃ rs log',
      filter_movies_by_criteria genre cast min_rating n log = (inr rs, log') ∧
      Forall (λ r, Rating r ≠ RStr "N/A") rs) ∧
  (∀ pre m post log,
      movies = pre ++ m :: post →
      d_rating (movie_details (movie_id m)) = RStr "N/A" →
      ∃ rs log',
        filter_movies_by_criteria genre cast min_rating n log = (inr rs, log') ∧
        rs = enrich <$> take (Z.to_nat (n `max` 1))
               (filter (λ m, matches genre cast min_rating m) pre ++
                filter (λ m, matches genre cast min_rating m) post) ∧
        (Z.of_nat (length (filter (λ m, matches genre cast min_rating m) pre))
           < n `max` 1 →
         (∃ scanned,
            log' = log ++ fetches (pre ++ m :: scanned) ∧
            scanned `prefix_of` post ∧ (post ≠ [] → scanned ≠ [])) ∧
         (∀ mid x post',
            post = mid ++ x :: post' →
            matches genre cast min_rating x = true →
            Z.of_nat (length (filter (λ m, matches genre cast min_rating m) pre) +
                      length (filter (λ m, matches genre cast min_rating m) mid))
              < n `max` 1 →
            rs !! (length (filter (λ m, matches genre cast min_rating m) pre) +
                   length (filter (λ m, matches genre cast min_rating m) mid))%nat
              = Some (enrich x)))).
Proof.
  intros Hna. split.
  - intros log. destruct (filter_run genre cast min_rating n log) as [log' Hrun].
    eexists _, log'. split; [done|].
    apply Forall_fmap, Forall_forall. intros m Hm Hr.
    apply kept_rows_match, matches_spec in Hm as (_ & _ & q & Hq & _).
    rewrite Hr in Hq. simpl in Hq. by rewrite Hna in Hq.
  - intros pre m post log Hmovies Hm.
    assert (matches genre cast min_rating m = false) as Hskip.
    { unfold matches, rated_at_least. rewrite Hm. simpl. rewrite Hna.
      apply andb_false_r. }
    destruct (filter_run genre cast min_rating n log) as [log' Hrun].
    assert (filter (λ m, matches genre cast min_rating m) movies
            = filter (λ m, matches genre cast min_rating m) pre ++
              filter (λ m, matches genre cast min_rating m) post) as Hkept.
    { rewrite Hmovies, filter_app, filter_cons, decide_False; [done|].
      rewrite Hskip. simpl. tauto. }
    rewrite Hkept in Hrun. eexists _, log'. split; [done|]. split; [done|].
    intros Hquota. split.
    + destruct (filter_loop_scans genre cast min_rating n post
                  ([] ++ (enrich <$> filter (λ m, matches genre cast min_rating m) pre))
                  ((log ++ fetches pre) ++ fetches [m]))
        as (scanned & rs & Hscan & Hprefix & Hnext).
      exists scanned. split; [|done].
      unfold filter_movies_by_criteria in Hrun. rewrite Hmovies in Hrun.
      rewrite filter_loop_passes in Hrun by (cbn [length]; lia).
      rewrite filter_loop_cons, Hskip, Hscan in Hrun.
      injection Hrun as _ <-.
      by rewrite fetches_app, (fetches_cons m scanned), !app_assoc.
    + intros mid x post' -> Hx Hroom.
      rewrite filter_app, filter_cons, decide_True by (by rewrite Hx).
      rewrite list_lookup_fmap, lookup_take_lt by lia.
      rewrite app_assoc.
      rewrite <-(length_app (filter _ pre) (filter _ mid)).
      by rewrite list_lookup_middle.
Qed.

(** C7, as the program has it.  With empty [genre] and [cast], the threshold
    [0] and [num_results ≥ 1], the call returns, in catalog order, the first
    [num_results] (or all, if there are fewer) of the rows whose rating converts
    to a number that is at least [0]: a row whose rating does not convert is
    passed over.  When every row has such a rating, these are the first rows of
    the catalog. *)
Theorem filter_without_criteria n log :
  lower "" = "" → 1 ≤ n →
  ∃ log',
    filter_movies_by_criteria "" "" (Q2Qc 0) n log =
      (inr (enrich <$> take (Z.to_nat n)
                            (filter (λ m, rated_at_least (Q2Qc 0) m) movies)),
       log') ∧
    (Forall (λ m, rated_at_least (Q2Qc 0) m) movies →
     filter_movies_by_criteria "" "" (Q2Qc 0) n log =
       (inr (enrich <$> take (Z.to_nat n) movies), log')).
Proof.
  intros Hlower Hn. destruct (filter_run "" "" (Q2Qc 0) n log) as [log' Hrun].
  exists log'.
  assert (filter (λ m, matches "" "" (Q2Qc 0) m) movies
          = filter (λ m, rated_at_least (Q2Qc 0) m) movies) as Heq.
  { apply list_filter_iff. intros m. unfold matches.
    by rewrite Hlower, !contains_empty. }
  rewrite Heq, Z.max_l in Hrun by done. split; [done|].
  intros Hall. by rewrite Hrun, filter_all.
Qed.

(** C9.  Called with [num_results ≤ 0] on a catalog in which some row
    passes the three tests, [filter_movies_by_criteria] returns exactly one
    dictionary, that of the first such row, and stops there. *)
Theorem filter_nonpositive_count genre cast min_rating n m log :
  n ≤ 0 → m ∈ movies → matches genre cast min_rating m = true →
  ∃ i m',
    list_find (λ m, matches genre cast min_rating m) movies = Some (i, m') ∧
    filter_movies_by_criteria genre cast min_rating n log =
      (inr [enrich m'], log ++ fetches (take (S i) movies)).
Proof.
  intros Hn Hin Hm.
  destruct (list_find_elem_of (λ m, matches genre cast min_rating m) movies m)
    as [[i m'] Hfind]; [done|by apply Is_true_true|].
  exists i, m'. split; [done|].
  apply list_find_Some in Hfind as (Hi & Hm' & Hbefore).
  assert (filter (λ m, matches genre cast min_rating m) (take i movies) = [])
    as Hnone.
  { apply filter_none, Forall_forall. intros x [j [Hj Hlt]]%elem_of_take.
    by eapply Hbefore. }
  unfold filter_movies_by_criteria.
  rewrite <-(take_drop_middle movies i m' Hi) at 1.
  rewrite (filter_loop_quota genre cast min_rating n (take i movies) m'
             (drop (S i) movies) [] log).
  - by rewrite Hnone, (take_S_r movies i m' Hi).
  - by apply Is_true_true.
  - rewrite Hnone. cbn [length]. lia.
Qed.

(** ** The recommendations *)

(** C5.  For a title no row of the catalog carries, [recommend] raises: the
    lookup of the index raises [IndexError], which is the failure the
    specification names [NotFoundError], and nothing is requested. *)
Theorem recommend_unknown_title movie n log :
  movie ∉ title <$> movies →
  recommend movie n log = (inl IndexError, log).
Proof.
  intros Habsent. unfold recommend, title_index, bind.
  assert (list_find (λ m, title m = movie) movies = None) as ->; [|done].
  apply list_find_None, Forall_forall. intros m Hm Heq. apply Habsent.
  apply list_elem_of_fmap. by exists m.
Qed.

Lemma title_position movie :
  movie ∈ title <$> movies →
  ∃ p m, list_find (λ m, title m = movie) movies = Some (p, m).
Proof.
  intros (m & Hm & Hin)%list_elem_of_fmap.
  destruct (list_find_elem_of (λ m, title m = movie) movies m) as [[p m'] H];
    [done..|]. by exists p, m'.
Qed.

(** C1, as the program has it.  For a title of the catalog, whose first row
    is at position [p], and [num_results] between 1 and the size of the
    catalog less one, [recommend] returns exactly [num_results]
    dictionaries, those of the rows at the selected positions; position [p]
    is not selected when its own score is larger than every score before it
    in its row and at least every score after it. *)
Theorem recommend_count movie n p m log :
  matching_dimensions →
  list_find (λ m, title m = movie) movies = Some (p, m) →
  1 ≤ n ≤ Z.of_nat (length movies) - 1 →
  ∃ row ms,
    similarity !! p = Some row ∧
    recommend movie n log = (inr (enrich <$> ms), log ++ fetches ms) ∧
    Forall2 (λ i m, movies !! i.1 = Some m) (selected row n) ms ∧
    Z.of_nat (length (enrich <$> ms)) = n ∧
    (ranks_first row p → p ∉ (selected row n).*1).
Proof.
  intros Hdim Hfind Hn.
  pose proof Hfind as (Hp & _)%list_find_Some.
  destruct (matching_dimensions_row p m Hdim Hp) as (row & Hrow & Hlen).
  destruct (recommend_run movie n p m row log Hfind Hrow Hlen) as (ms & Hms & Hrun).
  exists row, ms. split_and!; [done..| |].
  - rewrite length_fmap, <-(Forall2_length _ _ _ Hms), selected_length by lia. lia.
  - apply selected_excludes_first. lia.
Qed.

(** C2.  For a title of the catalog, the dictionaries [recommend] returns
    are those of the selected entries, each entry pairing a position with the
    score of that position in the row of the title; the scores do not
    increase along the entries, and of two entries with equal scores the one
    with the earlier position comes first. *)
Theorem recommend_sorted movie n log :
  matching_dimensions →
  movie ∈ title <$> movies →
  ∃ p m row ms,
    list_find (λ m, title m = movie) movies = Some (p, m) ∧
    similarity !! p = Some row ∧
    recommend movie n log = (inr (enrich <$> ms), log ++ fetches ms) ∧
    Forall2 (λ i m, movies !! i.1 = Some m) (selected row n) ms ∧
    Forall (λ i, row !! i.1 = Some i.2) (selected row n) ∧
    StronglySorted ranks_before (selected row n).
Proof.
  intros Hdim (p & m & Hfind)%title_position.
  pose proof Hfind as (Hp & _)%list_find_Some.
  destruct (matching_dimensions_row p m Hdim Hp) as (row & Hrow & Hlen).
  destruct (recommend_run movie n p m row log Hfind Hrow Hlen) as (ms & Hms & Hrun).
  exists p, m, row, ms. split_and!; [done..| |].
  - apply selected_scores.
  - apply selected_sorted.
Qed.

(** C10.  For a title of the catalog and [num_results] at least the size of
    the catalog, [recommend] does not raise and returns one dictionary for
    every row but one. *)
Theorem recommend_clipped movie n log :
  matching_dimensions →
  movie ∈ title <$> movies →
  Z.of_nat (length movies) ≤ n →
  ∃ rs log',
    recommend movie n log = (inr rs, log') ∧
    length rs = (length movies - 1)%nat.
Proof.
  intros Hdim (p & m & Hfind)%title_position Hn.
  pose proof Hfind as (Hp & _)%list_find_Some.
  destruct (matching_dimensions_row p m Hdim Hp) as (row & Hrow & Hlen).
  destruct (recommend_run movie n p m row log Hfind Hrow Hlen) as (ms & Hms & Hrun).
  eexists _, _. split; [done|].
  rewrite length_fmap, <-(Forall2_length _ _ _ Hms), selected_length by lia. lia.
Qed.

(** ** The trailer *)

(** The loop passes over an entry that has its keys and is not a trailer on
    YouTube. *)
Lemma scan_videos_skip pre rest :
  Forall (λ v, has_keys v ∧ ¬ is_trailer v) pre →
  scan_videos (pre ++ rest) = scan_videos rest.
Proof.
  induction 1 as [|v pre [[[ty Hty] Hkeys] Hnot] _ IH]; [done|].
  cbn [app scan_videos]. unfold getitem, is_trailer in *. rewrite Hty.
  destruct (String.eqb_spec ty "Trailer") as [->|_]; [|done].
  destruct (Hkeys Hty) as [[site Hsite] _]. rewrite Hsite.
  destruct (String.eqb_spec site "YouTube") as [->|_]; [|done].
  by destruct Hnot.
Qed.

Lemma scan_videos_found pre v post key :
  Forall (λ v, has_keys v ∧ ¬ is_trailer v) pre →
  is_trailer v → v !! "key" = Some key →
  scan_videos (pre ++ v :: post) = inr ("https://www.youtube.com/watch?v=" +:+ key).
Proof.
  intros Hpre [Hty Hsite] Hkey. rewrite scan_videos_skip by done.
  cbn [scan_videos]. unfold getitem. by rewrite Hty, Hsite, Hkey.
Qed.

Lemma scan_videos_none videos :
  Forall (λ v, has_keys v ∧ ¬ is_trailer v) videos →
  scan_videos videos = inr "https://youtube.com".
Proof.
  intros H. rewrite <-(app_nil_r videos). by rewrite scan_videos_skip.
Qed.

Lemma scan_videos_raises pre v post :
  Forall (λ v, has_keys v ∧ ¬ is_trailer v) pre →
  ¬ has_keys v →
  ∃ e, scan_videos (pre ++ v :: post) = inl e.
Proof.
  intros Hpre Hv. rewrite scan_videos_skip by done.
  cbn [scan_videos]. unfold getitem, has_keys in *.
  destruct (v !! "type") as [ty|] eqn:Hty; [|by eexists].
  destruct (String.eqb_spec ty "Trailer") as [->|Hne].
  - destruct (v !! "site") as [site|] eqn:Hsite; [|by eexists].
    destruct (String.eqb_spec site "YouTube") as [->|Hne].
    + destruct (v !! "key") as [key|] eqn:Hkey; [|by eexists].
      destruct Hv. split; [by eexists|]. intros _. split; [by eexists|].
      intros _. by eexists.
    + destruct Hv. split; [by eexists|]. intros _. split; [by eexists|].
      intros [= ?]. done.
  - destruct Hv. split; [by eexists|]. intros [= ?]. done.
Qed.

(** C8.  [fetch_trailer] sends one request and never raises.  It returns
    the watch address built from the key of the first entry of the response
    that is a trailer on YouTube; it returns the address of the home page of
    YouTube when the response has no such entry, when the request fails, and
    when the scan fails at an entry that lacks a key it subscripts. *)
Theorem fetch_trailer_spec id log :
  ∃ url,
    fetch_trailer id log = (inr url, log ++ [GetVideos id]) ∧
    (get_videos id = None → url = "https://youtube.com") ∧
    (∀ data pre v post key,
       get_videos id = Some data → default [] data = pre ++ v :: post →
       Forall (λ v, has_keys v ∧ ¬ is_trailer v) pre →
       is_trailer v → v !! "key" = Some key →
       url = "https://www.youtube.com/watch?v=" +:+ key) ∧
    (∀ data,
       get_videos id = Some data →
       Forall (λ v, has_keys v ∧ ¬ is_trailer v) (default [] data) →
       url = "https://youtube.com") ∧
    (∀ data pre v post,
       get_videos id = Some data → default [] data = pre ++ v :: post →
       Forall (λ v, has_keys v ∧ ¬ is_trailer v) pre →
       ¬ has_keys v →
       url = "https://youtube.com").
Proof.
  exists (trailer_url id). split; [done|].
  unfold trailer_url, fetch_trailer_try. split_and!.
  - by intros ->.
  - intros data pre v post key -> -> Hpre Hv Hkey.
    by rewrite (scan_videos_found pre v post key).
  - intros data -> Hnone. by rewrite scan_videos_none.
  - intros data pre v post -> -> Hpre Hv.
    by destruct (scan_videos_raises pre v post Hpre Hv) as [e ->].
Qed.

(** * Further properties *)

(** ** The ranking *)

(** The ranking [recommend] sorts is the enumerated row rearranged so that
    the scores do not increase and equal scores keep their positions in
    order, and it is the only list that is so. *)
Theorem ranking_characterised (row : list Qc) (l : list (nat * Qc)) :
  l = sorted_desc (enumerate row) ↔
  l ≡ₚ enumerate row ∧ StronglySorted ranks_before l.
Proof.
  split.
  - intros ->. split; [apply sorted_desc_perm|].
    apply sorted_desc_sorted, enumerate_sorted.
  - intros [Hperm Hsorted]. by apply sorted_desc_unique.
Qed.

Lemma selected_nodup row n : NoDup (selected row n).*1.
Proof.
  eapply sublist_NoDup; [|apply fmap_sublist, selected_sublist].
  rewrite sorted_desc_perm, enumerate_positions. apply NoDup_seq.
Qed.

Lemma selected_nonpositive row n : -1 ≤ n ≤ 0 → selected row n = [].
Proof.
  intros Hn. unfold selected, py_slice, slice_bound.
  rewrite (proj2 (Z.ltb_ge 1 0)), (proj2 (Z.ltb_ge (n + 1) 0)) by lia.
  replace (Z.to_nat _) with 0%nat by lia. done.
Qed.

Lemma selected_negative row n :
  n ≤ -2 →
  selected row n = selected row ((Z.of_nat (length row) + n) `max` 0).
Proof.
  intros Hn. unfold selected, py_slice, slice_bound.
  rewrite sorted_desc_length. unfold enumerate. rewrite length_imap.
  rewrite (proj2 (Z.ltb_ge 1 0)), (proj2 (Z.ltb_lt (n + 1) 0)) by lia.
  rewrite (proj2 (Z.ltb_ge (_ `max` 0 + 1) 0)) by lia.
  f_equal. lia.
Qed.

(** ** More on the recommendations *)

Lemma for_each_recommendation_raises sel log :
  Exists (λ i, movies !! i.1 = None) sel →
  ∃ log', for_each recommendation sel log = (inl IndexError, log').
Proof.
  revert log. induction sel as [|i sel IH]; intros log Hsel.
  { by apply Exists_nil in Hsel. }
  cbn [for_each]. unfold bind at 1.
  destruct (movies !! i.1) as [m|] eqn:Hm.
  - rewrite (recommendation_run _ _ _ Hm). unfold bind at 1.
    apply Exists_cons in Hsel as [Hi|Hsel]; [congruence|].
    destruct (IH (log ++ fetches [m]) Hsel) as [log' ->]. by exists log'.
  - exists log. unfold recommendation, bind. by rewrite Hm.
Qed.

(** For a count that is not negative, [recommend] returns that many
    dictionaries, or one for every row but one when the count is larger:
    none at all for the count [0]. *)
Theorem recommend_count_clipped movie n log :
  matching_dimensions →
  movie ∈ title <$> movies →
  0 ≤ n →
  ∃ rs log',
    recommend movie n log = (inr rs, log') ∧
    length rs = (Z.to_nat n `min` (length movies - 1))%nat.
Proof.
  intros Hdim (p & m & Hfind)%title_position Hn.
  pose proof Hfind as (Hp & _)%list_find_Some.
  destruct (matching_dimensions_row p m Hdim Hp) as (row & Hrow & Hlen).
  destruct (recommend_run movie n p m row log Hfind Hrow Hlen) as (ms & Hms & Hrun).
  eexists _, _. split; [done|].
  by rewrite length_fmap, <-(Forall2_length _ _ _ Hms), selected_length, Hlen.
Qed.

(** [recommend] sends two requests for each dictionary it returns, the
    details and then the videos of its row, in the order of the dictionaries,
    and no request for any other row. *)
Theorem recommend_requests movie n log :
  matching_dimensions →
  movie ∈ title <$> movies →
  ∃ ms,
    recommend movie n log = (inr (enrich <$> ms), log ++ fetches ms) ∧
    Forall (λ m, m ∈ movies) ms ∧
    length (fetches ms) = (2 * length (enrich <$> ms))%nat.
Proof.
  intros Hdim (p & m & Hfind)%title_position.
  pose proof Hfind as (Hp & _)%list_find_Some.
  destruct (matching_dimensions_row p m Hdim Hp) as (row & Hrow & Hlen).
  destruct (recommend_run movie n p m row log Hfind Hrow Hlen) as (ms & Hms & Hrun).
  exists ms. split_and!; [done| |].
  - clear Hrun. induction Hms as [|i m' sel ms Hi _ IH]; constructor; [|done].
    by eapply list_elem_of_lookup_2.
  - rewrite length_fmap. clear. induction ms as [|m' ms IH]; [done|].
    rewrite fetches_cons, length_app, IH. simpl. lia.
Qed.

(** A negative count is a slice bound counted from the end of the ranking:
    the counts [-1] and [0] give the same, empty, answer, and a count
    [n ≤ -2] gives the answer of the count [catalogSize + n], or of [0] when
    that is negative. *)
Theorem recommend_negative_count movie log :
  matching_dimensions →
  recommend movie (-1) log = recommend movie 0 log ∧
  ∀ n, n ≤ -2 →
    recommend movie n log =
    recommend movie ((Z.of_nat (length movies) + n) `max` 0) log.
Proof.
  intros [_ Hrows].
  assert (∀ n n', (∀ row, length row = length movies →
                          selected row n = selected row n') →
                  recommend movie n log = recommend movie n' log) as Hsel.
  { intros n n' Heq. unfold recommend, bind.
    destruct (title_index movie log) as [[e|p] log']; [done|].
    destruct (similarity !! p) as [row|] eqn:Hrow; [|done]. simpl.
    rewrite Heq; [done|]. exact (Forall_lookup_1 _ _ _ _ Hrows Hrow). }
  split.
  - apply Hsel. intros row _. by rewrite !selected_nonpositive by lia.
  - intros n Hn. apply Hsel. intros row <-. by apply selected_negative.
Qed.

(** No row is recommended twice: the dictionaries returned belong to rows
    at pairwise different positions. *)
Theorem recommend_no_duplicates movie n log :
  matching_dimensions →
  movie ∈ title <$> movies →
  ∃ (positions : list nat) ms,
    recommend movie n log = (inr (enrich <$> ms), log ++ fetches ms) ∧
    Forall2 (λ i m, movies !! i = Some m) positions ms ∧
    NoDup positions.
Proof.
  intros Hdim (p & m & Hfind)%title_position.
  pose proof Hfind as (Hp & _)%list_find_Some.
  destruct (matching_dimensions_row p m Hdim Hp) as (row & Hrow & Hlen).
  destruct (recommend_run movie n p m row log Hfind Hrow Hlen) as (ms & Hms & Hrun).
  exists (selected row n).*1, ms. split_and!; [done| |apply selected_nodup].
  by apply Forall2_fmap_l.
Qed.

(** When the score of the title's own position [p] ranks first in its row,
    the entries [recommend] runs over are the best of the others: a position
    that is neither [p] nor selected has a score no larger than any selected
    score. *)
Theorem recommend_best_scores n p row :
  0 ≤ n →
  ranks_first row p →
  ∀ i j s,
    i ∈ selected row n → row !! j = Some s → j ≠ p → j ∉ (selected row n).*1 →
    (s ≤ i.2)%Qc.
Proof.
  intros Hn (self & tl & Hl & Hp)%ranking_head i j s Hi Hj Hjp Hnot.
  pose proof (sorted_desc_sorted _ (enumerate_sorted row)) as Hsorted.
  assert ((j, s) ∈ sorted_desc (enumerate row)) as Hin.
  { rewrite sorted_desc_perm. by apply elem_of_enumerate. }
  unfold selected in *. rewrite py_slice_from_1, Hl in * by done.
  cbn [drop] in *. apply StronglySorted_inv in Hsorted as [Hsorted _].
  apply elem_of_cons in Hin as [[= ? _]|Hin]; [done|].
  rewrite <-(take_drop (Z.to_nat n) tl) in Hin, Hsorted.
  apply elem_of_app in Hin as [Hin|Hin].
  { destruct Hnot. by apply (list_elem_of_fmap_2 fst) in Hin. }
  destruct (StronglySorted_app_1_elem_of _ _ _ _ _ Hsorted Hi Hin) as [Hlt|[-> _]].
  - by apply Qclt_le_weak.
  - apply Qcle_refl.
Qed.

(** When the score of the title's own position [p] ranks first in its row
    and the count is at least the length of the row less one, [recommend]
    runs over every other position, once: the positions selected, with [p],
    are the positions of the row. *)
Theorem recommend_all_others n p row :
  Z.of_nat (length row) - 1 ≤ n →
  ranks_first row p →
  p :: (selected row n).*1 ≡ₚ seq 0 (length row).
Proof.
  intros Hn (self & tl & Hl & Hp)%ranking_head.
  pose proof (sorted_desc_length (enumerate row)) as Hlen.
  unfold enumerate in Hlen at 2. rewrite length_imap, Hl in Hlen. simpl in Hlen.
  unfold selected. rewrite py_slice_from_1, Hl by lia. cbn [drop].
  rewrite drop_0, take_ge by lia.
  rewrite <-enumerate_positions, <-(sorted_desc_perm (enumerate row)), Hl. done.
Qed.

(** [recommend] raises [IndexError] when [similarity] does not fit the
    catalog: when it has no row at the position of the title, and when the
    row ranks a position the catalog does not have among those selected. *)
Theorem recommend_mismatched_dimensions movie n p m log :
  list_find (λ m, title m = movie) movies = Some (p, m) →
  (similarity !! p = None → recommend movie n log = (inl IndexError, log)) ∧
  (∀ row i,
     similarity !! p = Some row → i ∈ selected row n →
     (length movies ≤ i.1)%nat →
     ∃ log', recommend movie n log = (inl IndexError, log')).
Proof.
  intros Hfind. split.
  - intros Hrow. unfold recommend, title_index, bind. rewrite Hfind. simpl.
    by rewrite Hrow.
  - intros row i Hrow Hi Hbeyond.
    unfold recommend, title_index, bind. rewrite Hfind. simpl. rewrite Hrow. simpl.
    apply for_each_recommendation_raises, Exists_exists.
    exists i. split; [done|]. by apply lookup_ge_None.
Qed.

(** ** More on the catalog scan *)

Lemma filter_loop_exhausts genre cast min_rating n rows matched log :
  (length matched + length (filter (λ m, matches genre cast min_rating m) rows)
   < Z.to_nat (n `max` 1))%nat →
  filter_loop genre cast min_rating n rows matched log =
  (inr (matched ++ (enrich <$> filter (λ m, matches genre cast min_rating m) rows)),
   log ++ fetches rows).
Proof.
  revert matched log. induction rows as [|m rows IH]; intros matched log Hlen.
  - cbn [filter_loop ret]. by rewrite filter_nil, !app_nil_r.
  - rewrite filter_loop_cons, filter_cons, (fetches_cons m rows), (app_assoc log).
    rewrite filter_cons in Hlen.
    destruct (matches genre cast min_rating m) eqn:Hm.
    + rewrite decide_True in Hlen |- * by done. cbn [length] in Hlen.
      rewrite length_app. cbn [length].
      destruct (Z.geb_spec (Z.of_nat (length matched + 1)) n); [lia|].
      rewrite IH by (rewrite length_app; simpl; lia).
      by rewrite <-app_assoc.
    + rewrite decide_False in Hlen |- * by (simpl; tauto). by apply IH.
Qed.

Lemma filter_loop_ext genre cast genre' cast' min_rating n rows matched log :
  lower genre = lower genre' → lower cast = lower cast' →
  filter_loop genre cast min_rating n rows matched log =
  filter_loop genre' cast' min_rating n rows matched log.
Proof.
  intros Hg Hc. revert matched log.
  induction rows as [|m rows IH]; intros matched log; [done|].
  rewrite !filter_loop_cons.
  replace (matches genre' cast' min_rating m) with (matches genre cast min_rating m)
    by (unfold matches; by rewrite Hg, Hc).
  destruct (matches genre cast min_rating m); [|apply IH].
  destruct (_ >=? _); [done|apply IH].
Qed.

(** The scan returns the rows that pass the three tests, the first
    [max num_results 1] of them and all of these: no such row is left out
    before the last one returned. *)
Theorem filter_returns_first_matches genre cast min_rating n log :
  ∃ log',
    filter_movies_by_criteria genre cast min_rating n log =
      (inr (enrich <$> take (Z.to_nat (n `max` 1))
                            (filter (λ m, matches genre cast min_rating m) movies)),
       log').
Proof. apply filter_run. Qed.

(** When fewer rows pass the tests than the quota asks for, the scan
    returns all of them and has sent the two requests of every row of the
    catalog, of those that do not pass as well. *)
Theorem filter_scans_whole_catalog genre cast min_rating n log :
  Z.of_nat (length (filter (λ m, matches genre cast min_rating m) movies))
    < n `max` 1 →
  filter_movies_by_criteria genre cast min_rating n log =
    (inr (enrich <$> filter (λ m, matches genre cast min_rating m) movies),
     log ++ fetches movies).
Proof.
  intros Hfew. unfold filter_movies_by_criteria.
  rewrite filter_loop_exhausts; [done|]. cbn [length]. lia.
Qed.

(** The requests of a scan are those of the first [k] rows of the catalog
    for some [k], two for each row whether it passes the tests or not, and
    the scan returns at most [k] dictionaries. *)
Theorem filter_requests_prefix genre cast min_rating n log :
  ∃ (k : nat) rs,
    filter_movies_by_criteria genre cast min_rating n log =
      (inr rs, log ++ fetches (take k movies)) ∧
    (k ≤ length movies)%nat ∧ (length rs ≤ k)%nat.
Proof.
  destruct (filter_loop_prefix genre cast min_rating n movies [] log)
    as (k & rs & Hrun & Hk & Hrs).
  by exists k, rs.
Qed.

(** When the details request fails for every row, the scan returns no
    dictionary, whatever the criteria, after the requests of every row. *)
Theorem filter_when_details_fail genre cast min_rating n log :
  str_to_float "N/A" = None →
  Forall (λ m, get_movie (movie_id m) = None) movies →
  filter_movies_by_criteria genre cast min_rating n log =
    (inr [], log ++ fetches movies).
Proof.
  intros Hna Hfail.
  assert (filter (λ m, matches genre cast min_rating m) movies = []) as Hnone.
  { apply filter_none. eapply Forall_impl; [done|]. intros m Hm.
    unfold matches, rated_at_least, movie_details. rewrite Hm. simpl.
    rewrite Hna, andb_false_r. simpl. tauto. }
  unfold filter_movies_by_criteria. rewrite filter_loop_exhausts.
  - by rewrite Hnone.
  - rewrite Hnone. cbn [length]. lia.
Qed.

(** The criteria count only through their lower case: two calls whose
    genres, and whose casts, have the same lower case run alike. *)
Theorem filter_case_insensitive genre cast genre' cast' min_rating n log :
  lower genre = lower genre' → lower cast = lower cast' →
  filter_movies_by_criteria genre cast min_rating n log =
  filter_movies_by_criteria genre' cast' min_rating n log.
Proof. intros Hg Hc. by apply filter_loop_ext. Qed.

(** A larger quota only adds to the answer: the dictionaries returned for
    [n] are the first of those returned for any [n'] above [n]. *)
Theorem filter_count_monotone genre cast min_rating n n' log :
  n ≤ n' →
  ∃ rs rs' log1 log2,
    filter_movies_by_criteria genre cast min_rating n log = (inr rs, log1) ∧
    filter_movies_by_criteria genre cast min_rating n' log = (inr rs', log2) ∧
    rs `prefix_of` rs'.
Proof.
  intros Hn.
  destruct (filter_run genre cast min_rating n log) as [log1 Hrun].
  destruct (filter_run genre cast min_rating n' log) as [log2 Hrun'].
  eexists _, _, log1, log2. split_and!; [done..|].
  set (matching := filter _ movies).
  replace (Z.to_nat (n `max` 1))
    with (Z.to_nat (n `max` 1) `min` Z.to_nat (n' `max` 1))%nat by lia.
  rewrite <-take_take, fmap_take. apply prefix_take.
Qed.

Lemma filter_sublist {A} (P Q : A → Prop) `{!∀ x, Decision (P x)}
    `{!∀ x, Decision (Q x)} (l : list A) :
  (∀ x, P x → Q x) → filter P l `sublist_of` filter Q l.
Proof.
  intros HPQ. induction l as [|x l IH]; [done|]. rewrite !filter_cons.
  destruct (decide (P x)) as [HP|HP].
  - rewrite decide_True by auto. by constructor.
  - destruct (decide (Q x)); [by constructor|done].
Qed.

Lemma matches_threshold genre cast min_rating min_rating' m :
  (min_rating ≤ min_rating')%Qc →
  matches genre cast min_rating' m → matches genre cast min_rating m.
Proof.
  intros Hle. unfold matches, rated_at_least.
  destruct (contains _ _ && contains _ _); [|done]. simpl.
  destruct (float _) as [e|r]; [done|].
  rewrite !bool_decide_spec. intros Hr. by eapply Qcle_trans.
Qed.

(** A higher threshold never admits a row a lower one turns away: with a
    quota above the size of the catalog, the dictionaries returned for the
    threshold [min_rating'] are among those returned for any threshold
    [min_rating] below it, in the same order. *)
Theorem filter_threshold_monotone genre cast min_rating min_rating' n log :
  (min_rating ≤ min_rating')%Qc →
  Z.of_nat (length movies) < n →
  ∃ rs rs',
    filter_movies_by_criteria genre cast min_rating n log
      = (inr rs, log ++ fetches movies) ∧
    filter_movies_by_criteria genre cast min_rating' n log
      = (inr rs', log ++ fetches movies) ∧
    rs' `sublist_of` rs.
Proof.
  intros Hle Hn.
  assert (∀ r, Z.of_nat (length (filter (λ m, matches genre cast r m) movies))
               < n `max` 1) as Hfew.
  { intros r. pose proof (length_filter (λ m, matches genre cast r m) movies). lia. }
  eexists _, _. split_and!.
  - unfold filter_movies_by_criteria. rewrite filter_loop_exhausts; [done|].
    specialize (Hfew min_rating). cbn [length]. lia.
  - unfold filter_movies_by_criteria. rewrite filter_loop_exhausts; [done|].
    specialize (Hfew min_rating'). cbn [length]. lia.
  - rewrite !app_nil_l. apply fmap_sublist, filter_sublist.
    intros m. by apply matches_threshold.
Qed.

(** ** More on the helpers *)

Lemma scan_videos_sound videos url :
  scan_videos videos = inr url →
  url = "https://youtube.com" ∨
  ∃ pre v post key,
    videos = pre ++ v :: post ∧
    Forall (λ v, ¬ is_trailer v) pre ∧
    is_trailer v ∧ v !! "key" = Some key ∧
    url = "https://www.youtube.com/watch?v=" +:+ key.
Proof.
  induction videos as [|v videos IH]; cbn [scan_videos].
  { intros [= <-]. by left. }
  unfold getitem.
  assert (¬ is_trailer v → scan_videos videos = inr url →
    url = "https://youtube.com" ∨
    ∃ pre v' post key,
      v :: videos = pre ++ v' :: post ∧ Forall (λ v, ¬ is_trailer v) pre ∧
      is_trailer v' ∧ v' !! "key" = Some key ∧
      url = "https://www.youtube.com/watch?v=" +:+ key) as Hskip.
  { intros Hv [?|(pre & v' & post & key & -> & Hpre & Hv' & Hkey & ->)]%IH;
      [by left|right].
    exists (v :: pre), v', post, key. split_and!; [done| |done..].
    by constructor. }
  destruct (v !! "type") as [ty|] eqn:Hty; [|done].
  destruct (String.eqb_spec ty "Trailer") as [->|Hne];
    [|apply Hskip; intros [Hty' _]; congruence].
  destruct (v !! "site") as [site|] eqn:Hsite; [|done].
  destruct (String.eqb_spec site "YouTube") as [->|Hne];
    [|apply Hskip; intros [_ Hsite']; congruence].
  destruct (v !! "key") as [key|] eqn:Hkey; [|done].
  intros [= <-]. right. exists [], v, videos, key. by split_and!.
Qed.

Lemma trailer_url_cases id :
  trailer_url id = "https://youtube.com" ∨
  ∃ data url,
    get_videos id = Some data ∧ scan_videos (default [] data) = inr url ∧
    trailer_url id = url.
Proof.
  unfold trailer_url, fetch_trailer_try.
  destruct (get_videos id) as [data|]; [|by left].
  destruct (scan_videos (default [] data)) as [e|url] eqn:Hscan; [by left|].
  right. by exists data, url.
Qed.

(** Whatever the response, the address [fetch_trailer] returns is that of
    the home page of YouTube or is built from the key of an entry of the
    response that is a trailer on YouTube and has no such entry before it. *)
Theorem fetch_trailer_sound id log :
  ∃ url,
    fetch_trailer id log = (inr url, log ++ [GetVideos id]) ∧
    (url = "https://youtube.com" ∨
     ∃ data pre v post key,
       get_videos id = Some data ∧ default [] data = pre ++ v :: post ∧
       Forall (λ v, ¬ is_trailer v) pre ∧
       is_trailer v ∧ v !! "key" = Some key ∧
       url = "https://www.youtube.com/watch?v=" +:+ key).
Proof.
  exists (trailer_url id). split; [done|].
  destruct (trailer_url_cases id) as [->|(data & url & Hdata & Hscan & ->)];
    [by left|].
  apply scan_videos_sound in Hscan as [->|(pre & v & post & key & ?)]; [by left|].
  right. by exists data, pre, v, post, key.
Qed.

(** Every dictionary the program builds has a poster and a trailer whose
    addresses begin with [https://]: what [create_pdf] requests and what the
    page links to is never empty nor relative. *)
Theorem enrich_addresses m :
  starts_with "https://" (Poster (enrich m)) = true ∧
  starts_with "https://" (Trailer (enrich m)) = true.
Proof.
  split.
  - cbn [enrich Poster]. unfold movie_details.
    destruct (get_movie _) as [data|]; [|done]. simpl.
    destruct (poster_path data) as [path|]; [|done]. by destruct (String.eqb _ _).
  - cbn [enrich Trailer].
    destruct (trailer_url_cases (movie_id m))
      as [->|(data & url & _ & Hscan & ->)]; [done|].
    by apply scan_videos_sound in Hscan
      as [->|(? & ? & ? & key & _ & _ & _ & _ & ->)].
Qed.

End Program.

(** * The properties on sample data *)

(** The scenario of the specification: the row of [A] is [1.0, 0.8, 0.3],
    and two recommendations for [A] are [B] and [C], in that order. *)
Example recommend_sample :
  ∃ rs,
    recommend sample_get_movie sample_get_videos sample_movies sample_similarity
      "A" 2 [] = (inr rs, [GetMovie 2; GetVideos 2; GetMovie 3; GetVideos 3]) ∧
    Title <$> rs = ["B"; "C"].
Proof. eexists. split; reflexivity. Qed.

(** Of two positions with the same score, the earlier one is ranked first. *)
Example selected_ties :
  (selected [Q2Qc 1; Q2Qc (1 # 2); Q2Qc (3 # 4); Q2Qc (1 # 2)] 3).*1
  = [2; 1; 3]%nat.
Proof. reflexivity. Qed.

(** A genre is matched whatever its case; the row without a rating is
    passed over, and the scan goes on to the last row. *)
Example filter_sample :
  ∃ rs,
    filter_movies_by_criteria lower_ascii no_numeral sample_get_movie
      sample_get_videos sample_movies "ACTION" "dee" (Q2Qc 5) 10 []
    = (inr rs, fetches sample_movies) ∧
    Title <$> rs = ["C"].
Proof. eexists. split; reflexivity. Qed.

Lemma sample_dimensions : matching_dimensions sample_movies sample_similarity.
Proof. split; [reflexivity|]. repeat constructor. Defined.

Lemma sample_ranks_first : ranks_first [Q2Qc 1; Q2Qc (8 # 10); Q2Qc (3 # 10)] 0.
Proof.
  exists (Q2Qc 1). split; [reflexivity|].
  intros [|[|[|j]]] s; simpl; intros [= <-];
    (split; [lia|intros _]); by apply (bool_decide_unpack _).
Defined.

(** C1 on the sample: two recommendations for [A], whose own score ranks
    first, so that position 0 is not selected. *)
Lemma recommend_count_witness :
  matching_dimensions sample_movies sample_similarity ∧
  list_find (λ m, title m = "A") sample_movies = Some (0%nat, Movie 1 "A") ∧
  1 ≤ 2 ≤ Z.of_nat (length sample_movies) - 1 ∧
  ranks_first [Q2Qc 1; Q2Qc (8 # 10); Q2Qc (3 # 10)] 0 ∧
  ∃ ms,
    recommend sample_get_movie sample_get_videos sample_movies sample_similarity
      "A" 2 [] = (inr (enrich sample_get_movie sample_get_videos <$> ms),
                  [] ++ fetches ms) ∧
    Z.of_nat (length (enrich sample_get_movie sample_get_videos <$> ms)) = 2 ∧
    0%nat ∉ (selected [Q2Qc 1; Q2Qc (8 # 10); Q2Qc (3 # 10)] 2).*1.
Proof.
  split; [exact sample_dimensions|]. split; [reflexivity|].
  split; [simpl; lia|]. split; [exact sample_ranks_first|].
  destruct (recommend_count sample_get_movie sample_get_videos sample_movies
              sample_similarity "A" 2 0 (Movie 1 "A") [])
    as (row & ms & Hrow & Hrun & _ & Hlen & Hself).
  - exact sample_dimensions.
  - reflexivity.
  - simpl. lia.
  - injection Hrow as <-. exists ms.
    split; [exact Hrun|]. split; [exact Hlen|]. exact (Hself sample_ranks_first).
Defined.

(** C1 as stated fails: in a catalog of two rows that are as similar to
    each other as to themselves, the one recommendation for [B] is [B]
    itself, whose position 1 is the one selected. *)
Lemma recommend_returns_self :
  matching_dimensions twin_movies twin_similarity ∧
  list_find (λ m, title m = "B") twin_movies = Some (1%nat, Movie 2 "B") ∧
  1 ≤ 1 ≤ Z.of_nat (length twin_movies) - 1 ∧
  twin_similarity !! 1%nat = Some [Q2Qc 1; Q2Qc 1] ∧
  (selected [Q2Qc 1; Q2Qc 1] 1).*1 = [1%nat] ∧
  ∃ rs log',
    recommend sample_get_movie sample_get_videos twin_movies twin_similarity
      "B" 1 [] = (inr rs, log') ∧
    Title <$> rs = ["B"].
Proof.
  split; [split; [reflexivity|repeat constructor]|].
  split; [reflexivity|]. split; [simpl; lia|]. split; [reflexivity|].
  split; [reflexivity|]. eexists _, _. split; reflexivity.
Qed.

(** C2 on the sample. *)
Lemma recommend_sorted_witness :
  matching_dimensions sample_movies sample_similarity ∧
  "A" ∈ title <$> sample_movies ∧
  ∃ p m row ms,
    list_find (λ m, title m = "A") sample_movies = Some (p, m) ∧
    sample_similarity !! p = Some row ∧
    recommend sample_get_movie sample_get_videos sample_movies sample_similarity
      "A" 2 [] = (inr (enrich sample_get_movie sample_get_videos <$> ms),
                  [] ++ fetches ms) ∧
    Forall2 (λ i m, sample_movies !! i.1 = Some m) (selected row 2) ms ∧
    Forall (λ i, row !! i.1 = Some i.2) (selected row 2) ∧
    StronglySorted ranks_before (selected row 2).
Proof.
  split; [exact sample_dimensions|].
  split; [by apply (bool_decide_unpack _)|].
  apply (recommend_sorted sample_get_movie sample_get_videos sample_movies
           sample_similarity "A" 2 []).
  - exact sample_dimensions.
  - by apply (bool_decide_unpack _).
Defined.

(** C10 on the sample: asked for three, [recommend] returns two. *)
Lemma recommend_clipped_witness :
  matching_dimensions sample_movies sample_similarity ∧
  "A" ∈ title <$> sample_movies ∧
  Z.of_nat (length sample_movies) ≤ 3 ∧
  ∃ rs log',
    recommend sample_get_movie sample_get_videos sample_movies sample_similarity
      "A" 3 [] = (inr rs, log') ∧
    length rs = (length sample_movies - 1)%nat.
Proof.
  split; [exact sample_dimensions|].
  split; [by apply (bool_decide_unpack _)|]. split; [simpl; lia|].
  apply (recommend_clipped sample_get_movie sample_get_videos sample_movies
           sample_similarity "A" 3 []).
  - exact sample_dimensions.
  - by apply (bool_decide_unpack _).
  - simpl. lia.
Defined.

(** C5 on the sample: no row is titled [Z]. *)
Lemma recommend_unknown_title_witness :
  ("Z" ∉ title <$> sample_movies) ∧
  recommend sample_get_movie sample_get_videos sample_movies sample_similarity
    "Z" 2 [] = (inl IndexError, []).
Proof.
  split; [by apply (bool_decide_unpack _)|].
  apply (recommend_unknown_title sample_get_movie sample_get_videos sample_movies
           sample_similarity "Z" 2 []).
  by apply (bool_decide_unpack _).
Defined.

(** C4 as stated fails: called with [num_results = 0] on a catalog with a
    match, the scan returns one dictionary, which is more than zero. *)
Lemma filter_exceeds_zero_count :
  ∃ rs log',
    filter_movies_by_criteria lower_ascii no_numeral sample_get_movie
      sample_get_videos sample_movies "action" "" (Q2Qc 0) 0 [] = (inr rs, log') ∧
    length rs = 1%nat ∧
    ¬ Z.of_nat (length rs) ≤ 0.
Proof.
  eexists _, _. split; [vm_compute; reflexivity|]. split; [reflexivity|].
  simpl. lia.
Qed.

(** C4 on the sample: with a quota of one, the first row fills it and
    nothing is requested for the two rows after it. *)
Lemma filter_stops_at_quota_witness :
  sample_movies = [] ++ Movie 1 "A" :: [Movie 2 "B"; Movie 3 "C"] ∧
  matches lower_ascii no_numeral sample_get_movie "action" "" (Q2Qc 0)
    (Movie 1 "A") = true ∧
  Z.of_nat (length (filter (λ m, matches lower_ascii no_numeral sample_get_movie
                                   "action" "" (Q2Qc 0) m) [])) + 1 = 1 `max` 1 ∧
  (filter_movies_by_criteria lower_ascii no_numeral sample_get_movie
     sample_get_videos sample_movies "action" "" (Q2Qc 0) 1 []).2
  = [] ++ fetches ([] ++ [Movie 1 "A"]).
Proof.
  split; [reflexivity|]. split; [reflexivity|]. split; [reflexivity|].
  apply (proj2 (filter_stops_at_quota lower_ascii no_numeral sample_get_movie
                  sample_get_videos sample_movies "action" "" (Q2Qc 0) 1)
           [] (Movie 1 "A") [Movie 2 "B"; Movie 3 "C"] []); reflexivity.
Defined.

(** C6 on the sample: the second row has no rating; the scan passes over
    it, requests the third row and returns it after the first. *)
Lemma filter_skips_unknown_rating_witness :
  no_numeral "N/A" = None ∧
  sample_movies = [Movie 1 "A"] ++ Movie 2 "B" :: [Movie 3 "C"] ∧
  d_rating (movie_details sample_get_movie (movie_id (Movie 2 "B"))) = RStr "N/A" ∧
  Z.of_nat (length (filter (λ m, matches lower_ascii no_numeral sample_get_movie
                                   "" "" (Q2Qc 5) m) [Movie 1 "A"])) < 10 `max` 1 ∧
  [Movie 3 "C"] = [] ++ Movie 3 "C" :: [] ∧
  matches lower_ascii no_numeral sample_get_movie "" "" (Q2Qc 5) (Movie 3 "C")
    = true ∧
  (∃ rs log',
     filter_movies_by_criteria lower_ascii no_numeral sample_get_movie
       sample_get_videos sample_movies "" "" (Q2Qc 5) 10 [] = (inr rs, log') ∧
     Forall (λ r, Rating r ≠ RStr "N/A") rs) ∧
  (∃ rs scanned,
     filter_movies_by_criteria lower_ascii no_numeral sample_get_movie
       sample_get_videos sample_movies "" "" (Q2Qc 5) 10 []
     = (inr rs, [] ++ fetches ([Movie 1 "A"] ++ Movie 2 "B" :: scanned)) ∧
     scanned `prefix_of` [Movie 3 "C"] ∧ scanned ≠ [] ∧
     rs !! 1%nat = Some (enrich sample_get_movie sample_get_videos (Movie 3 "C"))).
Proof.
  assert (Z.of_nat (length (filter (λ m, matches lower_ascii no_numeral
                                           sample_get_movie "" "" (Q2Qc 5) m)
                                   [Movie 1 "A"])) < 10 `max` 1) as Hquota.
  { apply (bool_decide_unpack _). vm_compute. exact I. }
  split; [reflexivity|]. split; [reflexivity|]. split; [reflexivity|].
  split; [exact Hquota|]. split; [reflexivity|]. split; [reflexivity|].
  pose proof (filter_skips_unknown_rating lower_ascii no_numeral sample_get_movie
                sample_get_videos sample_movies "" "" (Q2Qc 5) 10 eq_refl)
    as [Hnever Hskip].
  split; [apply Hnever|].
  destruct (Hskip [Movie 1 "A"] (Movie 2 "B") [Movie 3 "C"] [] eq_refl eq_refl)
    as (rs & log' & Hrun & _ & Hpast).
  destruct (Hpast Hquota) as [(scanned & -> & Hprefix & Hnext) Hlater].
  exists rs, scanned. split; [exact Hrun|]. split; [exact Hprefix|].
  split; [apply Hnext; discriminate|].
  apply (Hlater [] (Movie 3 "C") [] eq_refl eq_refl). exact Hquota.
Defined.

(** C7 as stated fails: without criteria and with room for three, the scan
    of the sample returns two dictionaries and not the three rows, since
    the second row has no rating. *)
Lemma filter_without_criteria_skips :
  lower_ascii "" = "" ∧
  ∃ rs log',
    filter_movies_by_criteria lower_ascii no_numeral sample_get_movie
      sample_get_videos sample_movies "" "" (Q2Qc 0) 3 [] = (inr rs, log') ∧
    Title <$> rs = ["A"; "C"] ∧
    length rs ≠ Z.to_nat (3 `min` Z.of_nat (length sample_movies)).
Proof.
  split; [reflexivity|]. eexists _, _. split; [vm_compute; reflexivity|].
  split; [reflexivity|]. simpl. lia.
Qed.

(** C7 on the sample. *)
Lemma filter_without_criteria_witness :
  lower_ascii "" = "" ∧ 1 ≤ 3 ∧
  ∃ log',
    filter_movies_by_criteria lower_ascii no_numeral sample_get_movie
      sample_get_videos sample_movies "" "" (Q2Qc 0) 3 [] =
      (inr (enrich sample_get_movie sample_get_videos <$>
              take (Z.to_nat 3)
                (filter (λ m, rated_at_least no_numeral sample_get_movie (Q2Qc 0) m)
                        sample_movies)),
       log') ∧
    (Forall (λ m, rated_at_least no_numeral sample_get_movie (Q2Qc 0) m)
            sample_movies →
     filter_movies_by_criteria lower_ascii no_numeral sample_get_movie
       sample_get_videos sample_movies "" "" (Q2Qc 0) 3 [] =
       (inr (enrich sample_get_movie sample_get_videos <$>
               take (Z.to_nat 3) sample_movies), log')).
Proof.
  split; [reflexivity|]. split; [lia|].
  apply (filter_without_criteria lower_ascii no_numeral sample_get_movie
           sample_get_videos sample_movies 3 []); [reflexivity|lia].
Defined.

(** C9 on the sample: asked for none, the scan returns the first match. *)
Lemma filter_nonpositive_count_witness :
  0 ≤ 0 ∧ Movie 3 "C" ∈ sample_movies ∧
  matches lower_ascii no_numeral sample_get_movie "action" "" (Q2Qc 0)
    (Movie 3 "C") = true ∧
  ∃ i m',
    list_find (λ m, matches lower_ascii no_numeral sample_get_movie
                      "action" "" (Q2Qc 0) m) sample_movies = Some (i, m') ∧
    filter_movies_by_criteria lower_ascii no_numeral sample_get_movie
      sample_get_videos sample_movies "action" "" (Q2Qc 0) 0 [] =
      (inr [enrich sample_get_movie sample_get_videos m'],
       [] ++ fetches (take (S i) sample_movies)).
Proof.
  split; [lia|]. split; [by repeat constructor|]. split; [reflexivity|].
  apply (filter_nonpositive_count lower_ascii no_numeral sample_get_movie
           sample_get_videos sample_movies "action" "" (Q2Qc 0) 0 (Movie 3 "C") []).
  - lia.
  - by repeat constructor.
  - reflexivity.
Defined.

(** C8 on the sample: a teaser comes before the first trailer, whose key
    makes the address; a trailer without its key, a body without a list and
    a failed request all give the home page. *)
Lemma fetch_trailer_spec_witness :
  (∃ url, fetch_trailer sample_get_videos 1 [] = (inr url, [] ++ [GetVideos 1]) ∧
          url = "https://www.youtube.com/watch?v=" +:+ "abc") ∧
  (∃ url, fetch_trailer sample_get_videos 2 [] = (inr url, [] ++ [GetVideos 2]) ∧
          url = "https://youtube.com") ∧
  (∃ url, fetch_trailer sample_get_videos 3 [] = (inr url, [] ++ [GetVideos 3]) ∧
          url = "https://youtube.com") ∧
  (∃ url, fetch_trailer sample_get_videos 4 [] = (inr url, [] ++ [GetVideos 4]) ∧
          url = "https://youtube.com").
Proof.
  split_and!.
  - destruct (fetch_trailer_spec sample_get_videos 1 [])
      as (url & Hrun & _ & Hfound & _).
    exists url. split; [exact Hrun|].
    apply (Hfound _ [ {[ "type" := "Teaser"; "site" := "YouTube"; "key" := "t1" ]} ]
             {[ "type" := "Trailer"; "site" := "YouTube"; "key" := "abc" ]}
             [ {[ "type" := "Trailer"; "site" := "YouTube"; "key" := "xyz" ]} ]
             "abc" eq_refl eq_refl).
    + apply Forall_cons. split; [|constructor]. split.
      * split; [by eexists|]. intros Hty. vm_compute in Hty. discriminate Hty.
      * intros [Hty _]. vm_compute in Hty. discriminate Hty.
    + by split.
    + reflexivity.
  - destruct (fetch_trailer_spec sample_get_videos 2 [])
      as (url & Hrun & _ & _ & _ & Hfails).
    exists url. split; [exact Hrun|].
    apply (Hfails _ [] {[ "type" := "Trailer"; "site" := "YouTube" ]} []
             eq_refl eq_refl); [constructor|].
    intros [_ Hkeys]. destruct (Hkeys eq_refl) as [_ Hkey].
    by destruct (Hkey eq_refl).
  - destruct (fetch_trailer_spec sample_get_videos 3 [])
      as (url & Hrun & _ & _ & Hnone & _).
    exists url. split; [exact Hrun|]. apply (Hnone None eq_refl). constructor.
  - destruct (fetch_trailer_spec sample_get_videos 4 [])
      as (url & Hrun & Hfail & _).
    exists url. split; [exact Hrun|]. by apply Hfail.
Defined.

(** * The further properties on sample data *)

Lemma recommend_count_clipped_witness :
  matching_dimensions sample_movies sample_similarity ∧
  "A" ∈ title <$> sample_movies ∧
  0 ≤ 0 ∧
  ∃ rs log',
    recommend sample_get_movie sample_get_videos sample_movies sample_similarity
      "A" 0 [] = (inr rs, log') ∧
    length rs = (Z.to_nat 0 `min` (length sample_movies - 1))%nat.
Proof.
  split; [exact sample_dimensions|].
  split; [by apply (bool_decide_unpack _)|]. split; [lia|].
  apply (recommend_count_clipped sample_get_movie sample_get_videos sample_movies
           sample_similarity "A" 0 []).
  - exact sample_dimensions.
  - by apply (bool_decide_unpack _).
  - lia.
Defined.

Lemma recommend_requests_witness :
  matching_dimensions sample_movies sample_similarity ∧
  "A" ∈ title <$> sample_movies ∧
  ∃ ms,
    recommend sample_get_movie sample_get_videos sample_movies sample_similarity
      "A" 2 [] = (inr (enrich sample_get_movie sample_get_videos <$> ms),
                  [] ++ fetches ms) ∧
    Forall (λ m, m ∈ sample_movies) ms ∧
    length (fetches ms)
      = (2 * length (enrich sample_get_movie sample_get_videos <$> ms))%nat.
Proof.
  split; [exact sample_dimensions|].
  split; [by apply (bool_decide_unpack _)|].
  apply (recommend_requests sample_get_movie sample_get_videos sample_movies
           sample_similarity "A" 2 []).
  - exact sample_dimensions.
  - by apply (bool_decide_unpack _).
Defined.

(** On the sample of three rows, the count [-2] answers as the count [1]. *)
Lemma recommend_negative_count_witness :
  matching_dimensions sample_movies sample_similarity ∧
  recommend sample_get_movie sample_get_videos sample_movies sample_similarity
    "A" (-1) []
  = recommend sample_get_movie sample_get_videos sample_movies sample_similarity
      "A" 0 [] ∧
  -2 ≤ -2 ∧
  recommend sample_get_movie sample_get_videos sample_movies sample_similarity
    "A" (-2) []
  = recommend sample_get_movie sample_get_videos sample_movies sample_similarity
      "A" ((Z.of_nat (length sample_movies) + -2) `max` 0) [].
Proof.
  split; [exact sample_dimensions|].
  destruct (recommend_negative_count sample_get_movie sample_get_videos
              sample_movies sample_similarity "A" [] sample_dimensions)
    as [Hminus1 Hbelow].
  split; [exact Hminus1|]. split; [lia|]. apply Hbelow. lia.
Defined.

Lemma recommend_no_duplicates_witness :
  matching_dimensions sample_movies sample_similarity ∧
  "B" ∈ title <$> sample_movies ∧
  ∃ (positions : list nat) ms,
    recommend sample_get_movie sample_get_videos sample_movies sample_similarity
      "B" 5 [] = (inr (enrich sample_get_movie sample_get_videos <$> ms),
                  [] ++ fetches ms) ∧
    Forall2 (λ i m, sample_movies !! i = Some m) positions ms ∧
    NoDup positions.
Proof.
  split; [exact sample_dimensions|].
  split; [by apply (bool_decide_unpack _)|].
  apply (recommend_no_duplicates sample_get_movie sample_get_videos sample_movies
           sample_similarity "B" 5 []).
  - exact sample_dimensions.
  - by apply (bool_decide_unpack _).
Defined.

(** With one recommendation for [A], the row left out scores [0.3], which
    is no more than the [0.8] of the row recommended. *)
Lemma recommend_best_scores_witness :
  0 ≤ 1 ∧
  ranks_first [Q2Qc 1; Q2Qc (8 # 10); Q2Qc (3 # 10)] 0 ∧
  (1%nat, Q2Qc (8 # 10)) ∈ selected [Q2Qc 1; Q2Qc (8 # 10); Q2Qc (3 # 10)] 1 ∧
  [Q2Qc 1; Q2Qc (8 # 10); Q2Qc (3 # 10)] !! 2%nat = Some (Q2Qc (3 # 10)) ∧
  2%nat ≠ 0%nat ∧
  (2%nat ∉ (selected [Q2Qc 1; Q2Qc (8 # 10); Q2Qc (3 # 10)] 1).*1) ∧
  (Q2Qc (3 # 10) ≤ (1%nat, Q2Qc (8 # 10)).2)%Qc.
Proof.
  assert ((1%nat, Q2Qc (8 # 10))
          ∈ selected [Q2Qc 1; Q2Qc (8 # 10); Q2Qc (3 # 10)] 1) as Hin.
  { apply (bool_decide_unpack _). vm_compute. exact I. }
  assert (2%nat ∉ (selected [Q2Qc 1; Q2Qc (8 # 10); Q2Qc (3 # 10)] 1).*1) as Hout.
  { apply (bool_decide_unpack _). vm_compute. exact I. }
  split; [lia|]. split; [exact sample_ranks_first|]. split; [exact Hin|].
  split; [reflexivity|]. split; [lia|]. split; [exact Hout|].
  apply (recommend_best_scores 1 0 [Q2Qc 1; Q2Qc (8 # 10); Q2Qc (3 # 10)]
           ltac:(lia) sample_ranks_first (1%nat, Q2Qc (8 # 10)) 2%nat
           (Q2Qc (3 # 10)) Hin eq_refl ltac:(lia) Hout).
Defined.

Lemma recommend_all_others_witness :
  Z.of_nat (length [Q2Qc 1; Q2Qc (8 # 10); Q2Qc (3 # 10)]) - 1 ≤ 2 ∧
  ranks_first [Q2Qc 1; Q2Qc (8 # 10); Q2Qc (3 # 10)] 0 ∧
  0%nat :: (selected [Q2Qc 1; Q2Qc (8 # 10); Q2Qc (3 # 10)] 2).*1
    ≡ₚ seq 0 (length [Q2Qc 1; Q2Qc (8 # 10); Q2Qc (3 # 10)]).
Proof.
  split; [simpl; lia|]. split; [exact sample_ranks_first|].
  apply (recommend_all_others 2 0 [Q2Qc 1; Q2Qc (8 # 10); Q2Qc (3 # 10)]);
    [simpl; lia|exact sample_ranks_first].
Defined.

(** The matrix of two rows has no row for the third row of the sample, and
    the rows of three scores rank a position the catalog of two rows lacks:
    the request for [B] is sent before the lookup of that position raises. *)
Lemma recommend_mismatched_dimensions_witness :
  (list_find (λ m, title m = "C") sample_movies = Some (2%nat, Movie 3 "C") ∧
   twin_similarity !! 2%nat = None ∧
   recommend sample_get_movie sample_get_videos sample_movies twin_similarity
     "C" 1 [] = (inl IndexError, [])) ∧
  (list_find (λ m, title m = "A") twin_movies = Some (0%nat, Movie 1 "A") ∧
   sample_similarity !! 0%nat = Some [Q2Qc 1; Q2Qc (8 # 10); Q2Qc (3 # 10)] ∧
   (2%nat, Q2Qc (3 # 10)) ∈ selected [Q2Qc 1; Q2Qc (8 # 10); Q2Qc (3 # 10)] 2 ∧
   (length twin_movies ≤ (2%nat, Q2Qc (3 # 10)).1)%nat ∧
   ∃ log',
     recommend sample_get_movie sample_get_videos twin_movies sample_similarity
       "A" 2 [] = (inl IndexError, log')).
Proof.
  assert ((2%nat, Q2Qc (3 # 10))
          ∈ selected [Q2Qc 1; Q2Qc (8 # 10); Q2Qc (3 # 10)] 2) as Hin.
  { apply (bool_decide_unpack _). vm_compute. exact I. }
  split.
  - split; [reflexivity|]. split; [reflexivity|].
    apply (proj1 (recommend_mismatched_dimensions sample_get_movie
                    sample_get_videos sample_movies twin_similarity "C" 1 2
                    (Movie 3 "C") [] eq_refl)).
    reflexivity.
  - split; [reflexivity|]. split; [reflexivity|]. split; [exact Hin|].
    split; [simpl; lia|].
    apply (proj2 (recommend_mismatched_dimensions sample_get_movie
                    sample_get_videos twin_movies sample_similarity "A" 2 0
                    (Movie 1 "A") [] eq_refl)
             [Q2Qc 1; Q2Qc (8 # 10); Q2Qc (3 # 10)] (2%nat, Q2Qc (3 # 10))
             eq_refl Hin).
    simpl. lia.
Defined.

(** Two rows of the sample are action films; asked for ten, the scan
    returns both and has requested all three rows. *)
Lemma filter_scans_whole_catalog_witness :
  Z.of_nat (length (filter (λ m, matches lower_ascii no_numeral sample_get_movie
                                   "action" "" (Q2Qc 0) m) sample_movies))
    < 10 `max` 1 ∧
  filter_movies_by_criteria lower_ascii no_numeral sample_get_movie
    sample_get_videos sample_movies "action" "" (Q2Qc 0) 10 [] =
    (inr (enrich sample_get_movie sample_get_videos <$>
            filter (λ m, matches lower_ascii no_numeral sample_get_movie
                           "action" "" (Q2Qc 0) m) sample_movies),
     [] ++ fetches sample_movies).
Proof.
  assert (Z.of_nat (length (filter (λ m, matches lower_ascii no_numeral
                                           sample_get_movie "action" "" (Q2Qc 0) m)
                                   sample_movies)) < 10 `max` 1) as Hfew.
  { apply (bool_decide_unpack _). vm_compute. exact I. }
  split; [exact Hfew|].
  apply (filter_scans_whole_catalog lower_ascii no_numeral sample_get_movie
           sample_get_videos sample_movies "action" "" (Q2Qc 0) 10 [] Hfew).
Defined.

(** The details requests for the ids 4 and 5 fail. *)
Lemma filter_when_details_fail_witness :
  no_numeral "N/A" = None ∧
  Forall (λ m, sample_get_movie (movie_id m) = None) [Movie 4 "D"; Movie 5 "E"] ∧
  filter_movies_by_criteria lower_ascii no_numeral sample_get_movie
    sample_get_videos [Movie 4 "D"; Movie 5 "E"] "" "" (Q2Qc 0) 5 [] =
    (inr [], [] ++ fetches [Movie 4 "D"; Movie 5 "E"]).
Proof.
  assert (Forall (λ m, sample_get_movie (movie_id m) = None)
                 [Movie 4 "D"; Movie 5 "E"]) as Hfail.
  { repeat constructor. }
  split; [reflexivity|]. split; [exact Hfail|].
  apply (filter_when_details_fail lower_ascii no_numeral sample_get_movie
           sample_get_videos [Movie 4 "D"; Movie 5 "E"] "" "" (Q2Qc 0) 5 []
           eq_refl Hfail).
Defined.

Lemma filter_case_insensitive_witness :
  lower_ascii "ACTION" = lower_ascii "action" ∧
  lower_ascii "Dee" = lower_ascii "dee" ∧
  filter_movies_by_criteria lower_ascii no_numeral sample_get_movie
    sample_get_videos sample_movies "ACTION" "Dee" (Q2Qc 5) 10 [] =
  filter_movies_by_criteria lower_ascii no_numeral sample_get_movie
    sample_get_videos sample_movies "action" "dee" (Q2Qc 5) 10 [].
Proof.
  split; [reflexivity|]. split; [reflexivity|].
  apply (filter_case_insensitive lower_ascii no_numeral sample_get_movie
           sample_get_videos sample_movies "ACTION" "Dee" "action" "dee"
           (Q2Qc 5) 10 [] eq_refl eq_refl).
Defined.

Lemma filter_count_monotone_witness :
  1 ≤ 2 ∧
  ∃ rs rs' log1 log2,
    filter_movies_by_criteria lower_ascii no_numeral sample_get_movie
      sample_get_videos sample_movies "action" "" (Q2Qc 0) 1 [] = (inr rs, log1) ∧
    filter_movies_by_criteria lower_ascii no_numeral sample_get_movie
      sample_get_videos sample_movies "action" "" (Q2Qc 0) 2 [] = (inr rs', log2) ∧
    rs `prefix_of` rs'.
Proof.
  split; [lia|].
  apply (filter_count_monotone lower_ascii no_numeral sample_get_movie
           sample_get_videos sample_movies "action" "" (Q2Qc 0) 1 2 []).
  lia.
Defined.

Lemma filter_threshold_monotone_witness :
  (Q2Qc 5 ≤ Q2Qc 7)%Qc ∧
  Z.of_nat (length sample_movies) < 10 ∧
  ∃ rs rs',
    filter_movies_by_criteria lower_ascii no_numeral sample_get_movie
      sample_get_videos sample_movies "" "" (Q2Qc 5) 10 []
      = (inr rs, [] ++ fetches sample_movies) ∧
    filter_movies_by_criteria lower_ascii no_numeral sample_get_movie
      sample_get_videos sample_movies "" "" (Q2Qc 7) 10 []
      = (inr rs', [] ++ fetches sample_movies) ∧
    rs' `sublist_of` rs.
Proof.
  assert (Q2Qc 5 ≤ Q2Qc 7)%Qc as Hle.
  { apply (bool_decide_unpack _). vm_compute. exact I. }
  split; [exact Hle|]. split; [simpl; lia|].
  apply (filter_threshold_monotone lower_ascii no_numeral sample_get_movie
           sample_get_videos sample_movies "" "" (Q2Qc 5) (Q2Qc 7) 10 [] Hle).
  simpl. lia.
Defined.
